(** * European option pricing engine: embedding and specification check

    Shallow embedding of [bindings.cpp] (classes [EuropeanOption],
    [BlackScholesModel], [MonteCarloModel], [BinomialModel]).

    Number model.
    - [double] is read over the real numbers: every C++ arithmetic
      operator and every <cmath> call is mapped to the exact real
      operation of the same name ([std::log] to [ln], [std::exp] to [exp],
      [std::sqrt] to [sqrt], [std::pow] with an [int] exponent to
      [powerRZ], [std::erfc] to [erfc] below).  Rounding, overflow to
      infinity and NaN are outside this model; statements about values
      are therefore statements "up to floating-point tolerance".
    - Where a statement is about the sign of a result on every input,
      the range of [double] matters: the simulation pricer is embedded
      a second time over [double] with its two infinities and NaN
      (modules [Double] and [MonteCarloDouble]), each operation keeping
      its exact result inside the range, overflowing to an infinity
      beyond [DBL_MAX] and underflowing to zero below half the smallest
      subnormal.  The two embeddings agree where no operation leaves
      the range (lemma [simulation_price_in_range]).
    - [int] is a 32-bit two's complement integer, carried as a [Z]
      together with its range; the one place where the source can leave
      the range ([N + 1], the length of the lattice vector) has its
      wrap-around written out.
    - An out-of-range read of a [std::vector] is undefined behaviour and
      shows up as the outcome [Undefined]; a thrown C++ exception shows up
      as [Thrown]. *)

From Stdlib Require Import Reals ZArith Lra Lia List.
From stdpp Require Import base list numbers.

Local Open Scope R_scope.

(** ** The complementary error function

    [erf x] is the primitive of exp(-t^2) that vanishes at 0, divided by
    the total mass of exp(-t^2) over the positive half-line (the
    constant sqrt(pi)/2, whose closed form is not needed below):
    [erf x = (int_0^x exp(-t^2) dt) / (int_0^oo exp(-t^2) dt)], and
    [erfc x = 1 - erf x].  The primitive is given by its power series
    [sum_n (-1)^n x^(2n+1) / (n! (2n+1))]. *)

Definition gauss_coef (n : nat) : R :=
  (-1) ^ n / (INR (fact n) * INR (2 * n + 1)).

Lemma gauss_coef_neq_0 (n : nat) : gauss_coef n <> 0.
Proof.
  unfold gauss_coef, Rdiv.
  apply Rmult_integral_contrapositive_currified.
  - apply pow_nonzero; lra.
  - apply Rinv_neq_0_compat, Rmult_integral_contrapositive_currified.
    + apply INR_fact_neq_0.
    + apply not_0_INR; lia.
Qed.

Lemma gauss_coef_ratio (n : nat) :
  Rabs (gauss_coef (S n) / gauss_coef n) <= / INR (S n).
Proof.
  assert (Hf : INR (fact n) <> 0) by apply INR_fact_neq_0.
  assert (Hn : 0 < INR (S n)) by (apply lt_0_INR; lia).
  assert (Ha : 0 < INR (2 * n + 1)) by (apply lt_0_INR; lia).
  assert (Hb : 0 < INR (2 * S n + 1)) by (apply lt_0_INR; lia).
  assert (Hab : INR (2 * n + 1) <= INR (2 * S n + 1)) by (apply le_INR; lia).
  assert (Hp : (-1) ^ n <> 0) by (apply pow_nonzero; lra).
  replace (gauss_coef (S n) / gauss_coef n)
    with (- (INR (2 * n + 1) / (INR (S n) * INR (2 * S n + 1)))).
  2:{ unfold gauss_coef. rewrite fact_simpl, mult_INR. simpl pow.
      field. repeat split; try lra; assumption. }
  rewrite Rabs_Ropp, Rabs_pos_eq.
  2:{ apply Rlt_le, Rdiv_lt_0_compat; [lra | apply Rmult_lt_0_compat; lra]. }
  apply Rmult_le_reg_r with (INR (S n) * INR (2 * S n + 1)).
  { apply Rmult_lt_0_compat; lra. }
  replace (INR (2 * n + 1) / (INR (S n) * INR (2 * S n + 1)) *
           (INR (S n) * INR (2 * S n + 1))) with (INR (2 * n + 1))
    by (field; split; lra).
  replace (/ INR (S n) * (INR (S n) * INR (2 * S n + 1)))
    with (INR (2 * S n + 1)) by (field; lra).
  exact Hab.
Qed.

Lemma Alembert_gauss :
  Un_cv (fun n : nat => Rabs (gauss_coef (S n) / gauss_coef n)) 0.
Proof.
  intros eps Heps.
  destruct (Alembert_exp eps Heps) as [n0 Hn0].
  exists n0. intros n Hn. specialize (Hn0 n Hn).
  unfold Rdist in *. rewrite Rminus_0_r in *. rewrite Rabs_Rabsolu in *.
  eapply Rle_lt_trans; [apply gauss_coef_ratio|].
  rewrite simpl_fact in Hn0.
  rewrite Rabs_pos_eq in Hn0; [exact Hn0|].
  apply Rlt_le, Rinv_0_lt_compat, lt_0_INR. lia.
Qed.

Lemma exist_gauss_series (y : R) : { l : R | Pser gauss_coef y l }.
Proof.
  exact (Alembert_C3 gauss_coef y gauss_coef_neq_0 Alembert_gauss).
Defined.

Definition gauss_series (y : R) : R := proj1_sig (exist_gauss_series y).

(** [gauss_primitive x] is the integral of exp(-t^2) from 0 to x. *)
Definition gauss_primitive (x : R) : R := x * gauss_series (x * x).

(** Partial sums of the primitive, and the terms of their derivatives:
    the series of exp(-x^2). *)
Definition gauss_partial (n : nat) (x : R) : R :=
  sum_f_R0 (fun k => gauss_coef k * x ^ (2 * k + 1)) n.

Definition gauss_density_term (k : nat) (x : R) : R :=
  / INR (fact k) * (- (x * x)) ^ k.

Lemma gauss_term_derivative (k : nat) (x : R) :
  derivable_pt_lim (fun y => gauss_coef k * y ^ (2 * k + 1)) x
    (gauss_density_term k x).
Proof.
  replace (gauss_density_term k x)
    with (gauss_coef k * (INR (2 * k + 1) * x ^ pred (2 * k + 1))).
  - apply derivable_pt_lim_scal, derivable_pt_lim_pow.
  - unfold gauss_density_term, gauss_coef.
    replace (pred (2 * k + 1)) with (k + k)%nat by lia.
    replace ((- (x * x)) ^ k) with ((-1) ^ k * (x ^ k * x ^ k)).
    2:{ rewrite <- !Rpow_mult_distr. f_equal. ring. }
    rewrite pow_add. field.
    split; solve [apply INR_fact_neq_0 | apply not_0_INR; lia].
Qed.

Lemma gauss_partial_derivative (n : nat) (x : R) :
  derivable_pt_lim (gauss_partial n) x (SP gauss_density_term n x).
Proof.
  induction n as [|n IH].
  - unfold gauss_partial, SP. cbn [sum_f_R0]. apply gauss_term_derivative.
  - unfold gauss_partial, SP in *. cbn [sum_f_R0].
    apply (derivable_pt_lim_plus _
             (fun y => gauss_coef (S n) * y ^ (2 * S n + 1))).
    + exact IH.
    + apply gauss_term_derivative.
Qed.

Lemma gauss_partial_cv (x : R) :
  Un_cv (fun n => gauss_partial n x) (gauss_primitive x).
Proof.
  unfold gauss_primitive, gauss_series.
  destruct (exist_gauss_series (x * x)) as [l Hl]. cbn [proj1_sig].
  assert (E : forall n, gauss_partial n x
                        = x * sum_f_R0 (fun k => gauss_coef k * (x * x) ^ k) n).
  { intros n. unfold gauss_partial. rewrite scal_sum.
    apply sum_eq. intros k _.
    rewrite pow_add, pow_mult. replace (x ^ 2) with (x * x) by ring. ring. }
  intros eps Heps.
  destruct (Req_dec x 0) as [->|Hx].
  - exists O. intros n _. rewrite E, !Rmult_0_l.
    unfold Rdist. rewrite Rminus_diag, Rabs_R0. exact Heps.
  - assert (Hax : 0 < Rabs x) by now apply Rabs_pos_lt.
    destruct (Hl (eps / Rabs x)) as [n0 Hn0].
    { apply Rdiv_lt_0_compat; assumption. }
    exists n0. intros n Hn. rewrite E. unfold Rdist in *.
    rewrite <- Rmult_minus_distr_l, Rabs_mult.
    specialize (Hn0 n Hn).
    apply Rmult_lt_reg_r with (/ Rabs x); [now apply Rinv_0_lt_compat|].
    replace (Rabs x * Rabs (sum_f_R0 (fun k => gauss_coef k * (x * x) ^ k) n - l)
             * / Rabs x)
      with (Rabs (sum_f_R0 (fun k => gauss_coef k * (x * x) ^ k) n - l))
      by (field; lra).
    exact Hn0.
Qed.

Lemma gauss_density_cv (x : R) :
  { l : R | Un_cv (fun N => SP gauss_density_term N x) l }.
Proof.
  exists (exp (- (x * x))).
  intros eps Heps.
  destruct (proj2_sig (exist_exp (- (x * x))) eps Heps) as [n0 Hn0].
  exists n0. intros n Hn. exact (Hn0 n Hn).
Defined.

Lemma gauss_density_CVN (r : posreal) : CVN_r gauss_density_term r.
Proof.
  exists (fun k => / INR (fact k) * (r * r) ^ k), (exp (r * r)).
  split.
  - intros eps Heps.
    destruct (proj2_sig (exist_exp (r * r)) eps Heps) as [n0 Hn0].
    exists n0. intros n Hn. specialize (Hn0 n Hn).
    replace (sum_f_R0 (fun k => Rabs (/ INR (fact k) * (r * r) ^ k)) n)
      with (sum_f_R0 (fun k => / INR (fact k) * (r * r) ^ k) n).
    + exact Hn0.
    + apply sum_eq. intros k _. symmetry. apply Rabs_pos_eq.
      apply Rmult_le_pos.
      * left. apply Rinv_0_lt_compat, INR_fact_lt_0.
      * apply pow_le. pose proof (cond_pos r). nra.
  - intros n y Hy. unfold Boule in Hy. rewrite Rminus_0_r in Hy.
    unfold gauss_density_term.
    rewrite Rabs_mult, Rabs_pos_eq
      by (left; apply Rinv_0_lt_compat, INR_fact_lt_0).
    apply Rmult_le_compat_l; [left; apply Rinv_0_lt_compat, INR_fact_lt_0|].
    rewrite <- RPow_abs, Rabs_Ropp, Rabs_mult.
    pose proof (Rabs_pos y). pose proof (cond_pos r).
    apply pow_incr. split; nra.
Qed.

(** Term-by-term differentiation: the primitive has derivative
    exp(-x^2). *)
Lemma gauss_primitive_derivative (x : R) :
  derivable_pt_lim gauss_primitive x (exp (- (x * x))).
Proof.
  assert (Hr : 0 < Rabs x + 1) by (pose proof (Rabs_pos x); lra).
  set (r := mkposreal (Rabs x + 1) Hr).
  apply (CVU_derivable gauss_partial (SP gauss_density_term) gauss_primitive
           (fun y => exp (- (y * y))) 0 r).
  - exact (CVN_CVU gauss_density_term gauss_density_cv r (gauss_density_CVN r)).
  - intros y _. apply gauss_partial_cv.
  - intros n y _. apply gauss_partial_derivative.
  - unfold Boule. rewrite Rminus_0_r. simpl. lra.
Qed.

Lemma gauss_primitive_0 : gauss_primitive 0 = 0.
Proof. unfold gauss_primitive. ring. Qed.

Lemma gauss_primitive_odd (x : R) : gauss_primitive (- x) = - gauss_primitive x.
Proof.
  unfold gauss_primitive. replace (- x * - x) with (x * x) by ring. ring.
Qed.

Lemma gauss_primitive_increasing (x y : R) :
  x < y -> gauss_primitive x < gauss_primitive y.
Proof.
  intros Hxy.
  destruct (MVT_cor2 gauss_primitive (fun c => exp (- (c * c))) x y Hxy)
    as (c & Hc & _).
  { intros c _. apply gauss_primitive_derivative. }
  pose proof (exp_pos (- (c * c))). nra.
Qed.

Lemma gauss_density_le (c : R) : exp (- (c * c)) <= / (1 + c ^ 2).
Proof.
  rewrite exp_Ropp.
  pose proof (exp_ineq1_le (c * c)) as H.
  assert (0 < 1 + c ^ 2) by nra.
  apply Rinv_le_contravar; [assumption|]. replace (c ^ 2) with (c * c) by ring.
  exact H.
Qed.

(** exp(-t^2) <= 1/(1+t^2): the primitive stays below the arc tangent,
    hence below pi/2. *)
Lemma gauss_primitive_le_atan (x : R) : 0 <= x -> gauss_primitive x <= atan x.
Proof.
  intros [Hx|<-]; [|rewrite gauss_primitive_0, atan_0; lra].
  destruct (MVT_cor2 (fun y => atan y - gauss_primitive y)
              (fun c => / (1 + c ^ 2) - exp (- (c * c))) 0 x Hx)
    as (c & Hc & _).
  { intros c _.
    apply (derivable_pt_lim_minus atan gauss_primitive).
    - apply derivable_pt_lim_atan.
    - apply gauss_primitive_derivative. }
  rewrite gauss_primitive_0, atan_0 in Hc.
  pose proof (gauss_density_le c). nra.
Qed.

Lemma gauss_primitive_bounded (x : R) : gauss_primitive x < PI / 2.
Proof.
  destruct (Rle_lt_dec 0 x) as [Hx|Hx].
  - eapply Rle_lt_trans; [now apply gauss_primitive_le_atan|].
    apply atan_bound.
  - pose proof (gauss_primitive_increasing x 0 Hx) as H.
    rewrite gauss_primitive_0 in H. pose proof PI_RGT_0. lra.
Qed.

(** The values taken by the primitive. *)
Definition gauss_range (y : R) : Prop := exists x : R, y = gauss_primitive x.

Lemma gauss_range_bound : bound gauss_range.
Proof.
  exists (PI / 2). unfold is_upper_bound, gauss_range.
  intros y Hy. destruct Hy as [z Hz]. rewrite Hz.
  left. apply gauss_primitive_bounded.
Qed.

Lemma gauss_range_inhabited : exists y : R, gauss_range y.
Proof. exists (gauss_primitive 0), 0. reflexivity. Qed.

(** The total mass of exp(-t^2) over the positive half-line: the least
    upper bound of the (increasing) primitive. *)
Definition gauss_total : R :=
  proj1_sig (completeness gauss_range gauss_range_bound gauss_range_inhabited).

Lemma gauss_primitive_le_total (x : R) : gauss_primitive x <= gauss_total.
Proof.
  unfold gauss_total.
  destruct (completeness _ _ _) as [m [Hub Hleast]]. cbn [proj1_sig].
  apply Hub. now exists x.
Qed.

Lemma gauss_total_pos : 0 < gauss_total.
Proof.
  pose proof (gauss_primitive_increasing 0 1 ltac:(lra)) as H.
  rewrite gauss_primitive_0 in H.
  pose proof (gauss_primitive_le_total 1). lra.
Qed.

Definition erf (x : R) : R := gauss_primitive x / gauss_total.
Definition erfc (x : R) : R := 1 - erf x.

Lemma erf_odd (x : R) : erf (- x) = - erf x.
Proof.
  unfold erf. rewrite gauss_primitive_odd. field.
  pose proof gauss_total_pos; lra.
Qed.

Lemma erf_le_1 (x : R) : erf x <= 1.
Proof.
  unfold erf. pose proof gauss_total_pos as HG.
  apply Rmult_le_reg_r with gauss_total; [exact HG|].
  unfold Rdiv. rewrite Rmult_assoc, Rinv_l, Rmult_1_r, Rmult_1_l by lra.
  apply gauss_primitive_le_total.
Qed.

(** The normalisation is tight: [erf] comes arbitrarily close to 1. *)
Lemma erf_sup (eps : R) : 0 < eps -> exists x : R, 1 - eps < erf x.
Proof.
  intros Heps. pose proof gauss_total_pos as HG.
  apply Classical_Pred_Type.not_all_not_ex. intros Hall.
  assert (Hub : is_upper_bound gauss_range ((1 - eps) * gauss_total)).
  { intros y [x Hy]. rewrite Hy.
    destruct (Rle_lt_dec (gauss_primitive x) ((1 - eps) * gauss_total))
      as [Hle|Hlt]; [exact Hle|].
    exfalso. apply (Hall x). unfold erf.
    apply Rmult_lt_reg_r with gauss_total; [exact HG|].
    unfold Rdiv. rewrite Rmult_assoc, Rinv_l, Rmult_1_r by lra.
    exact Hlt. }
  unfold gauss_total in *.
  destruct (completeness _ _ _) as [m [Hm Hleast]]. cbn [proj1_sig] in *.
  specialize (Hleast _ Hub). nra.
Qed.

Lemma erfc_reflect (x : R) : erfc (- x) = 2 - erfc x.
Proof. unfold erfc. rewrite erf_odd. ring. Qed.

Lemma erfc_bounds (x : R) : 0 <= erfc x <= 2.
Proof.
  pose proof (erf_le_1 x). pose proof (erf_le_1 (- x)) as H'.
  rewrite erf_odd in H'. unfold erfc. lra.
Qed.

Lemma erfc_derivative (x : R) :
  derivable_pt_lim erfc x (- (exp (- (x * x)) / gauss_total)).
Proof.
  unfold erfc, erf.
  replace (- (exp (- (x * x)) / gauss_total))
    with (0 - exp (- (x * x)) * / gauss_total) by (unfold Rdiv; ring).
  apply (derivable_pt_lim_minus (fct_cte 1)
           (fun y => gauss_primitive y / gauss_total)).
  - apply derivable_pt_lim_const.
  - unfold Rdiv.
    apply (derivable_pt_lim_scal_right gauss_primitive).
    apply gauss_primitive_derivative.
Qed.

(** ** Machine integers ([int]) *)

Definition INT_MIN : Z := -2147483648.
Definition INT_MAX : Z := 2147483647.

Definition is_int (z : Z) : Prop := (INT_MIN <= z <= INT_MAX)%Z.

(** Two's complement reduction of a mathematical integer to [int]. *)
Definition wrap_int (z : Z) : Z := ((z - INT_MIN) mod 2 ^ 32 + INT_MIN)%Z.

(** [a + b] on [int].  An overflow wraps around, as it does on the two's
    complement targets the module is built for (the C++ standard leaves
    it undefined). *)
Definition int_add (a b : Z) : Z := wrap_int (a + b).

(** ** Outcomes of a call *)

Inductive exn : Type :=
| std_length_error.

Inductive outcome (A : Type) : Type :=
| Returned (a : A)
| Thrown (e : exn)
| Undefined.

Arguments Returned {A} a.
Arguments Thrown {A} e.
Arguments Undefined {A}.

#[global] Instance outcome_ret : MRet outcome := fun A a => Returned a.

#[global] Instance outcome_bind : MBind outcome := fun A B f m =>
  match m with
  | Returned a => f a
  | Thrown e => Thrown e
  | Undefined => Undefined
  end.

(** [for (int i = ...; ...; ...) body] over the successive values of the
    counter, threading the loop state and stopping at the first failure. *)
Fixpoint for_each {St : Type} (body : Z -> St -> outcome St)
    (range : list Z) (s : St) : outcome St :=
  match range with
  | [] => Returned s
  | i :: rest => s' ← body i s; for_each body rest s'
  end.

(** ** [std::vector<double>] *)

(** [std::vector<double> v(n)] with an [int] argument: the argument is
    converted to [size_t], so a negative [n] asks for more than
    [max_size()] elements and the constructor throws
    [std::length_error]; otherwise [n] value-initialised elements. *)
Definition vector_new (n : Z) : outcome (list R) :=
  if (n <? 0)%Z then Thrown std_length_error
  else Returned (replicate (Z.to_nat n) 0).

(** [v[i]] as an rvalue. *)
Definition vector_get (v : list R) (i : Z) : outcome R :=
  if (i <? 0)%Z then Undefined
  else match v !! Z.to_nat i with
       | Some x => Returned x
       | None => Undefined
       end.

(** [v[i] = x]. *)
Definition vector_set (v : list R) (i : Z) (x : R) : outcome (list R) :=
  if ((0 <=? i) && (i <? Z.of_nat (length v)))%Z
  then Returned (<[Z.to_nat i := x]> v)
  else Undefined.

(** ** <cmath> and <algorithm> *)

(** [M_SQRT1_2], the constant 1/sqrt(2). *)
Definition M_SQRT1_2 : R := / sqrt 2.

(** [std::max(a, b)] is [(a < b) ? b : a]. *)
Definition std_max (a b : R) : R := if Rlt_dec a b then b else a.

(** ** The option contract *)

Inductive OptionType : Type := Call | Put.

Module EuropeanOption.

Record t : Type := mk {
  S : R; K : R; T : R; r : R; sigma : R;
  type : OptionType
}.

(** The constructor copies its arguments into the fields. *)
Definition new (S_ K_ T_ r_ sigma_ : R) (type_ : OptionType) : outcome t :=
  Returned (mk S_ K_ T_ r_ sigma_ type_).

Definition payoff (opt : t) (ST : R) : R :=
  match type opt with
  | Call => std_max (ST - K opt) 0
  | Put => std_max (K opt - ST) 0
  end.

End EuropeanOption.

(** ** Analytic pricer *)

Module BlackScholesModel.
Import EuropeanOption.

Definition norm_cdf (x : R) : R := 0.5 * erfc (- x * M_SQRT1_2).

Definition price (opt : EuropeanOption.t) : R :=
  let d1 := (ln (S opt / K opt)
             + (r opt + 0.5 * sigma opt * sigma opt) * T opt)
            / (sigma opt * sqrt (T opt)) in
  let d2 := d1 - sigma opt * sqrt (T opt) in
  match type opt with
  | Call => S opt * norm_cdf d1
            - K opt * exp (- r opt * T opt) * norm_cdf d2
  | Put => K opt * exp (- r opt * T opt) * norm_cdf (- d2)
           - S opt * norm_cdf (- d1)
  end.

End BlackScholesModel.

(** ** Randomness

    [std::mt19937 gen(std::random_device{}())] followed by calls
    [dist(gen)] of a [std::normal_distribution<>(0.0, 1.0)]: a generator
    is identified with the sequence of values its successive [dist(gen)]
    calls produce, and the entropy source with the sequence of generators
    its successive readings seed. *)

Definition generator : Type := nat -> R.
Definition entropy : Type := nat -> generator.

Definition dist (gen : generator) : R * generator :=
  (gen O, fun k => gen (Datatypes.S k)).

Definition random_device (w : entropy) : generator * entropy :=
  (w O, fun k => w (Datatypes.S k)).

(** ** Simulation pricer *)

Module MonteCarloModel.
Import EuropeanOption.

Record t : Type := mk { N : Z }.

Definition new (num_simulations : Z) : outcome t :=
  Returned (mk num_simulations).

(** One iteration of the sampling loop on [(payoff_sum, gen)]. *)
Definition draw (opt : EuropeanOption.t) (st : R * generator)
  : R * generator :=
  let '(payoff_sum, gen) := st in
  let '(Z, gen) := dist gen in
  let ST := S opt * exp ((r opt - 0.5 * sigma opt * sigma opt) * T opt
                         + sigma opt * sqrt (T opt) * Z) in
  let payoff := payoff opt ST in
  (payoff_sum + payoff, gen).

Definition price (m : t) (opt : EuropeanOption.t) (w : entropy)
  : outcome R * entropy :=
  let payoff_sum := 0 in
  let '(gen, w) := random_device w in
  let '(payoff_sum, _) :=
    fold_left (fun st (_ : Z) => draw opt st) (seqZ 0 (N m))
              (payoff_sum, gen) in
  (Returned (exp (- r opt * T opt) * (payoff_sum / IZR (N m))), w).

End MonteCarloModel.

(** ** Lattice pricer *)

Module BinomialModel.
Import EuropeanOption.

Record t : Type := mk { N : Z }.

Definition new (steps : Z) : outcome t := Returned (mk steps).

(** Body of the terminal-payoff loop. *)
Definition terminal (m : t) (opt : EuropeanOption.t) (u d : R)
    (i : Z) (option_values : list R) : outcome (list R) :=
  let ST := S opt * powerRZ u (N m - i) * powerRZ d i in
  vector_set option_values i (payoff opt ST).

(** Body of the inner backward-induction loop. *)
Definition backward (discount p : R) (i : Z) (option_values : list R)
  : outcome (list R) :=
  a ← vector_get option_values i;
  b ← vector_get option_values (i + 1);
  vector_set option_values i (discount * (p * a + (1 - p) * b)).

(** The three loop counters run over [0..N], [N-1..0] and [0..step];
    they are reached only after the vector of [N + 1] elements exists,
    that is for [-1 <= N < INT_MAX], where none of [++i], [--step],
    [N - i], [N - 1] and [i + 1] leaves the range of [int]. *)
Definition price (m : t) (opt : EuropeanOption.t) : outcome R :=
  let dt := T opt / IZR (N m) in
  let u := exp (sigma opt * sqrt dt) in
  let d := 1 / u in
  let p := (exp (r opt * dt) - d) / (u - d) in
  let discount := exp (- r opt * dt) in
  option_values ← vector_new (int_add (N m) 1);
  option_values ←
    for_each (terminal m opt u d) (seqZ 0 (N m + 1)) option_values;
  option_values ←
    for_each (fun step => for_each (backward discount p) (seqZ 0 (step + 1)))
             (reverse (seqZ 0 (N m))) option_values;
  vector_get option_values 0.

End BinomialModel.

(** ** The price capability exposed to the host

    The three pricers share the signature [price(contract) -> real]; a
    call runs against the process-wide entropy source. *)

Inductive Model : Type :=
| BlackScholes
| MonteCarlo (m : MonteCarloModel.t)
| Binomial (m : BinomialModel.t).

Definition price (model : Model) (opt : EuropeanOption.t) (w : entropy)
  : outcome R * entropy :=
  match model with
  | BlackScholes => (Returned (BlackScholesModel.price opt), w)
  | MonteCarlo m => MonteCarloModel.price m opt w
  | Binomial m => (BinomialModel.price m opt, w)
  end.

(** ** The range of [double]

    A [double] is a number, one of the two infinities, or NaN.  An
    operation whose exact result is [x] gives [round x]: [x] itself
    inside the range (rounding to 53 bits is left out, as everywhere in
    this development), an infinity beyond [DBL_MAX], zero below half
    the smallest subnormal [DBL_TRUE_MIN].  The sign of a zero is not
    tracked.  The cases on infinities and NaN are those of IEEE 754. *)

Inductive double : Type :=
| Num (x : R)
| PInf
| NInf
| NaN.

Module Double.

(** (2 - 2^(-52)) 2^1023 and 2^(-1074). *)
Definition DBL_MAX : R := (2 - / 2 ^ 52) * 2 ^ 1023.
Definition DBL_TRUE_MIN : R := / 2 ^ 1074.

Definition round (x : R) : double :=
  if Rlt_dec DBL_MAX x then PInf
  else if Rlt_dec x (- DBL_MAX) then NInf
  else if Rlt_dec (Rabs x) (DBL_TRUE_MIN / 2) then Num 0
  else Num x.

(** The infinity of the sign of [s]; NaN for [s = 0]. *)
Definition inf_of_sign (s : R) : double :=
  if Rlt_dec 0 s then PInf else if Rlt_dec s 0 then NInf else NaN.

Definition opp (a : double) : double :=
  match a with
  | Num x => Num (- x)
  | PInf => NInf
  | NInf => PInf
  | NaN => NaN
  end.

Definition add (a b : double) : double :=
  match a, b with
  | NaN, _ | _, NaN => NaN
  | Num x, Num y => round (x + y)
  | PInf, NInf | NInf, PInf => NaN
  | PInf, _ | _, PInf => PInf
  | NInf, _ | _, NInf => NInf
  end.

Definition sub (a b : double) : double := add a (opp b).

Definition mul (a b : double) : double :=
  match a, b with
  | NaN, _ | _, NaN => NaN
  | Num x, Num y => round (x * y)
  | Num x, PInf | PInf, Num x => inf_of_sign x
  | Num x, NInf | NInf, Num x => inf_of_sign (- x)
  | PInf, PInf | NInf, NInf => PInf
  | PInf, NInf | NInf, PInf => NInf
  end.

(** Division; a zero divisor is the positive zero, as the conversion of
    the [int] 0 gives it. *)
Definition div (a b : double) : double :=
  match a, b with
  | NaN, _ | _, NaN => NaN
  | Num x, Num y =>
      if Req_dec_T y 0 then inf_of_sign x else round (x / y)
  | Num _, PInf | Num _, NInf => Num 0
  | PInf, Num y => if Rlt_dec y 0 then NInf else PInf
  | NInf, Num y => if Rlt_dec y 0 then PInf else NInf
  | PInf, PInf | PInf, NInf | NInf, PInf | NInf, NInf => NaN
  end.

(** [std::sqrt]: NaN on a negative argument. *)
Definition sqrt (a : double) : double :=
  match a with
  | Num x => if Rlt_dec x 0 then NaN else Num (sqrt x)
  | PInf => PInf
  | NInf => NaN
  | NaN => NaN
  end.

(** [std::exp]. *)
Definition exp (a : double) : double :=
  match a with
  | Num x => round (exp x)
  | PInf => PInf
  | NInf => Num 0
  | NaN => NaN
  end.

(** [a < b]: false as soon as one side is NaN. *)
Definition lt (a b : double) : bool :=
  match a, b with
  | NaN, _ | _, NaN => false
  | Num x, Num y => if Rlt_dec x y then true else false
  | PInf, _ => false
  | NInf, NInf => false
  | NInf, _ => true
  | Num _, PInf => true
  | Num _, NInf => false
  end.

(** [std::max(a, b)] is [(a < b) ? b : a]. *)
Definition max (a b : double) : double := if lt a b then b else a.

(** [0 <= a], false on NaN. *)
Definition nonneg (a : double) : Prop :=
  match a with
  | Num x => 0 <= x
  | PInf => True
  | NInf | NaN => False
  end.

End Double.

(** ** Simulation pricer over the range of [double]

    [MonteCarloModel::price] and [EuropeanOption::payoff] once more,
    operation by operation, on [double].  The fields of the contract
    and the draws are numbers. *)

Module MonteCarloDouble.
Import EuropeanOption.

Definition payoff (opt : EuropeanOption.t) (ST : double) : double :=
  match type opt with
  | Call => Double.max (Double.sub ST (Num (K opt))) (Num 0)
  | Put => Double.max (Double.sub (Num (K opt)) ST) (Num 0)
  end.

(** One iteration of the sampling loop on [(payoff_sum, gen)]. *)
Definition draw (opt : EuropeanOption.t) (st : double * generator)
  : double * generator :=
  let '(payoff_sum, gen) := st in
  let '(Z, gen) := dist gen in
  let drift :=
    Double.mul
      (Double.sub (Num (r opt))
         (Double.mul (Double.mul (Num 0.5) (Num (sigma opt)))
            (Num (sigma opt))))
      (Num (T opt)) in
  let shock :=
    Double.mul (Double.mul (Num (sigma opt)) (Double.sqrt (Num (T opt))))
      (Num Z) in
  let ST := Double.mul (Num (S opt)) (Double.exp (Double.add drift shock)) in
  let payoff := payoff opt ST in
  (Double.add payoff_sum payoff, gen).

Definition price (m : MonteCarloModel.t) (opt : EuropeanOption.t)
    (w : entropy) : outcome double * entropy :=
  let payoff_sum := Num 0 in
  let '(gen, w) := random_device w in
  let '(payoff_sum, _) :=
    fold_left (fun st (_ : Z) => draw opt st)
              (seqZ 0 (MonteCarloModel.N m)) (payoff_sum, gen) in
  (Returned
     (Double.mul
        (Double.exp (Double.mul (Double.opp (Num (r opt))) (Num (T opt))))
        (Double.div payoff_sum (Num (IZR (MonteCarloModel.N m))))),
   w).

End MonteCarloDouble.

(** * The specification's formulas, as the specification words them *)

Module Spec.
Import EuropeanOption.

(** Standard-normal CDF: [Phi(x) = 0.5 erfc(-x / sqrt 2)]. *)
Definition Phi (x : R) : R := 0.5 * erfc (- x / sqrt 2).

Definition d1 (opt : EuropeanOption.t) : R :=
  (ln (S opt / K opt) + (r opt + 0.5 * sigma opt ^ 2) * T opt)
  / (sigma opt * sqrt (T opt)).

Definition d2 (opt : EuropeanOption.t) : R :=
  d1 opt - sigma opt * sqrt (T opt).

(** Closed-form value of the contract. *)
Definition closed_form (opt : EuropeanOption.t) : R :=
  match type opt with
  | Call => S opt * Phi (d1 opt)
            - K opt * exp (- (r opt * T opt)) * Phi (d2 opt)
  | Put => K opt * exp (- (r opt * T opt)) * Phi (- d2 opt)
           - S opt * Phi (- d1 opt)
  end.

(** Terminal underlying price for one standard-normal draw [z]:
    [S exp((r - 0.5 sigma^2) T + sigma sqrt(T) z)]. *)
Definition terminal_price (opt : EuropeanOption.t) (z : R) : R :=
  S opt * exp ((r opt - 0.5 * sigma opt ^ 2) * T opt
               + sigma opt * sqrt (T opt) * z).

Definition sum_list (l : list R) : R := fold_right Rplus 0 l.

Definition average (l : list R) : R := sum_list l / INR (length l).

(** Discounted average payoff over the draws [zs]. *)
Definition simulation_estimate (opt : EuropeanOption.t) (zs : list R) : R :=
  exp (- (r opt * T opt))
  * average (map (fun z => payoff opt (terminal_price opt z)) zs).

(** Cox-Ross-Rubinstein parameters for [N] steps. *)
Definition crr_dt (opt : EuropeanOption.t) (N : nat) : R := T opt / INR N.
Definition crr_u (opt : EuropeanOption.t) (N : nat) : R :=
  exp (sigma opt * sqrt (crr_dt opt N)).
Definition crr_d (opt : EuropeanOption.t) (N : nat) : R := 1 / crr_u opt N.
Definition crr_p (opt : EuropeanOption.t) (N : nat) : R :=
  (exp (r opt * crr_dt opt N) - crr_d opt N) / (crr_u opt N - crr_d opt N).
Definition crr_discount (opt : EuropeanOption.t) (N : nat) : R :=
  exp (- (r opt * crr_dt opt N)).

(** Value of node [i] after [k] backward steps: the terminal payoff
    [payoff(S u^(N-i) d^i)] for [k = 0], and the discounted
    risk-neutral mean of its two successors otherwise. *)
Fixpoint crr_node (opt : EuropeanOption.t) (N k i : nat) : R :=
  match k with
  | O => payoff opt (S opt * crr_u opt N ^ (N - i) * crr_d opt N ^ i)
  | Datatypes.S k' =>
      crr_discount opt N
      * (crr_p opt N * crr_node opt N k' i
         + (1 - crr_p opt N) * crr_node opt N k' (Datatypes.S i))
  end.

(** Root of the lattice after all [N] backward steps. *)
Definition crr_price (opt : EuropeanOption.t) (N : nat) : R :=
  crr_node opt N N O.

End Spec.

(** The contract invariant of the data model. *)
Definition valid_contract (opt : EuropeanOption.t) : Prop :=
  0 < EuropeanOption.S opt /\ 0 < EuropeanOption.K opt /\
  0 < EuropeanOption.T opt /\ 0 < EuropeanOption.sigma opt.

(** [opt] with its payoff kind replaced. *)
Definition with_type (opt : EuropeanOption.t) (ty : OptionType)
  : EuropeanOption.t :=
  EuropeanOption.mk (EuropeanOption.S opt) (EuropeanOption.K opt)
    (EuropeanOption.T opt) (EuropeanOption.r opt)
    (EuropeanOption.sigma opt) ty.

(** A sample contract: S = K = 100, T = 1, r = 0.05, sigma = 0.2. *)
Definition sample_contract (ty : OptionType) : EuropeanOption.t :=
  EuropeanOption.mk 100 100 1 0.05 0.2 ty.

(** ** Auxiliary definitions of the development *)

(** The first [n] values produced by [dist(gen)]. *)
Definition draws (gen : generator) (n : nat) : list R := map gen (seq 0 n).

(** The draws made by one call of the Simulation Pricer that starts
    with entropy source [w]. *)
Definition draws_of_call (m : MonteCarloModel.t) (w : entropy) : list R :=
  draws (fst (random_device w)) (Z.to_nat (MonteCarloModel.N m)).

(** A generator and an entropy source for the examples. *)
Definition constant_generator (z : R) : generator := fun _ => z.
Definition constant_entropy (z : R) : entropy :=
  fun _ => constant_generator z.

(** One backward step on the first [n] cells, as a function on lists:
    each of them becomes [c] of itself and its right neighbour. *)
Fixpoint blend (c : R -> R -> R) (n : nat) (l : list R) : list R :=
  match n, l with
  | S n', a :: ((b :: _) as tl) => c a b :: blend c n' tl
  | _, _ => l
  end.

(** Discounted risk-neutral mean of a node's two successors. *)
Definition node_mean (discount p a b : R) : R :=
  discount * (p * a + (1 - p) * b).

(** [k] backward steps applied to the node values [g]. *)
Fixpoint node_values (discount p : R) (g : nat -> R) (k i : nat) : R :=
  match k with
  | O => g i
  | S k' => node_mean discount p (node_values discount p g k' i)
              (node_values discount p g k' (S i))
  end.

(** Contracts for a one-step lattice: K = 1, T = 1, sigma = 1, so that
    dt = 1, u = e and d = 1/e. *)
Definition one_step_contract (ty : OptionType) (S0 r0 : R)
  : EuropeanOption.t :=
  EuropeanOption.mk S0 1 1 r0 1 ty.

(** With r = 2 the contract lies in the arbitrage region exp(r dt) > u. *)
Definition steep_contract (ty : OptionType) (S0 : R) : EuropeanOption.t :=
  one_step_contract ty S0 2.

(** A contract outside the data model's invariant: S = 0. *)
Definition degenerate_contract : EuropeanOption.t :=
  EuropeanOption.mk 0 1 1 0 1 Put.

(** [opt] with its spot price replaced. *)
Definition with_S (opt : EuropeanOption.t) (S0 : R) : EuropeanOption.t :=
  EuropeanOption.mk S0 (EuropeanOption.K opt) (EuropeanOption.T opt)
    (EuropeanOption.r opt) (EuropeanOption.sigma opt)
    (EuropeanOption.type opt).

(** [opt] with its volatility replaced. *)
Definition with_sigma (opt : EuropeanOption.t) (sigma0 : R)
  : EuropeanOption.t :=
  EuropeanOption.mk (EuropeanOption.S opt) (EuropeanOption.K opt)
    (EuropeanOption.T opt) (EuropeanOption.r opt) sigma0
    (EuropeanOption.type opt).

(** The lattice read as a function of the node price: value, [k] steps
    before maturity, of a node whose underlying price is [s]. *)
Fixpoint lattice_value (f : R -> R) (discount p u d : R) (k : nat) (s : R)
  : R :=
  match k with
  | O => f s
  | S k' => discount * (p * lattice_value f discount p u d k' (s * u)
                        + (1 - p) * lattice_value f discount p u d k' (s * d))
  end.

Definition convex (f : R -> R) : Prop :=
  forall x y t : R, 0 <= t <= 1 ->
    f (t * x + (1 - t) * y) <= t * f x + (1 - t) * f y.

(** The standard-normal density. *)
Definition norm_pdf (x : R) : R :=
  M_SQRT1_2 / (2 * gauss_total) * exp (- (x * x / 2)).

(** The closed form [A Phi(D) - kd Phi(D - B)] along a one-parameter
    family of contracts. *)
Definition bs_value (kd : R) (A D B : R -> R) (y : R) : R :=
  A y * BlackScholesModel.norm_cdf (D y)
  - kd * BlackScholesModel.norm_cdf (D y - B y).

(** [d1] of a contract, and the identity S phi(d1) = K e^(-rT) phi(d2). *)
Definition d1_of (S0 K0 T0 r0 sigma0 : R) : R :=
  (ln (S0 / K0) + (r0 + 0.5 * sigma0 * sigma0) * T0) / (sigma0 * sqrt T0).

(** The Call price as a function of the spot price. *)
Definition call_of_spot (K0 T0 r0 sigma0 : R) : R -> R :=
  bs_value (K0 * exp (- r0 * T0)) id
    (fun s => d1_of s K0 T0 r0 sigma0) (fct_cte (sigma0 * sqrt T0)).

(** The Call price as a function of the volatility. *)
Definition call_of_sigma (S0 K0 T0 r0 : R) : R -> R :=
  bs_value (K0 * exp (- r0 * T0)) (fct_cte S0)
    (fun v => d1_of S0 K0 T0 r0 v) (fun v => v * sqrt T0).

(** Derivative of [d1] in the volatility, as the quotient rule gives it. *)
Definition d1_of_sigma_slope (S0 K0 T0 r0 v : R) : R :=
  ((0.5 * T0 * (2 * v) + 0) * (sqrt T0 * v + 0)
   - sqrt T0 * (0.5 * T0 * Rsqr v + (ln (S0 / K0) + r0 * T0)))
  / Rsqr (sqrt T0 * v + 0).

(** [opt] with spot and strike in units [lambda] times smaller. *)
Definition scale_contract (opt : EuropeanOption.t) (lambda : R)
  : EuropeanOption.t :=
  EuropeanOption.mk (lambda * EuropeanOption.S opt)
    (lambda * EuropeanOption.K opt) (EuropeanOption.T opt)
    (EuropeanOption.r opt) (EuropeanOption.sigma opt)
    (EuropeanOption.type opt).

(** The operation whose exact result is [x] returns [x]: it neither
    overflows nor underflows. *)
Definition exact (x : R) : Prop := Double.round x = Num x.

(** Every operation of one iteration of the sampling loop, on the draw
    [z] and with [payoff_sum] accumulated so far, is exact. *)
Definition exact_draw (opt : EuropeanOption.t) (payoff_sum z : R) : Prop :=
  let a1 := 0.5 * EuropeanOption.sigma opt in
  let a2 := a1 * EuropeanOption.sigma opt in
  let a3 := EuropeanOption.r opt - a2 in
  let drift := a3 * EuropeanOption.T opt in
  let b1 := EuropeanOption.sigma opt * sqrt (EuropeanOption.T opt) in
  let shock := b1 * z in
  let ST := EuropeanOption.S opt * exp (drift + shock) in
  let diff :=
    match EuropeanOption.type opt with
    | Call => ST - EuropeanOption.K opt
    | Put => EuropeanOption.K opt - ST
    end in
  exact a1 /\ exact a2 /\ exact a3 /\ exact drift /\ exact b1
  /\ exact shock /\ exact (drift + shock) /\ exact (exp (drift + shock))
  /\ exact ST /\ exact diff /\ exact (payoff_sum + std_max diff 0).

(** The same along the sampling loop over the draws [zs]; each
    iteration goes on from the sum [MonteCarloModel.draw] leaves. *)
Fixpoint exact_loop (opt : EuropeanOption.t) (payoff_sum : R) (zs : list R)
  : Prop :=
  match zs with
  | [] => True
  | z :: zs' =>
      exact_draw opt payoff_sum z
      /\ exact_loop opt
           (fst (MonteCarloModel.draw opt
                   (payoff_sum, constant_generator z))) zs'
  end.

(** The same for a whole call of the Simulation Pricer. *)
Definition exact_price (m : MonteCarloModel.t) (opt : EuropeanOption.t)
    (w : entropy) : Prop :=
  let payoff_sum :=
    fst (fold_left (fun st (_ : Z) => MonteCarloModel.draw opt st)
           (seqZ 0 (MonteCarloModel.N m)) (0, fst (random_device w))) in
  let discount := exp (- EuropeanOption.r opt * EuropeanOption.T opt) in
  let mean := payoff_sum / IZR (MonteCarloModel.N m) in
  exact_loop opt 0 (draws_of_call m w)
  /\ exact (- EuropeanOption.r opt * EuropeanOption.T opt)
  /\ exact discount /\ exact mean /\ exact (discount * mean).

(** A contract past its maturity date (T = -1), and one with a rate at
    which e^(rT) overflows (r = 1000). *)
Definition negative_T_contract : EuropeanOption.t :=
  EuropeanOption.mk 100 100 (-1) 0.05 0.2 Call.
Definition overflow_contract : EuropeanOption.t :=
  EuropeanOption.mk 100 100 1 1000 0.2 Call.

(** Direction of the price in the spot: up for a Call, down for a Put. *)
Definition spot_order (ty : OptionType) (v1 v2 : R) : Prop :=
  match ty with
  | Call => v1 <= v2
  | Put => v2 <= v1
  end.

(** * Properties of the embedding *)

Lemma sample_contract_valid (ty : OptionType) :
  valid_contract (sample_contract ty).
Proof. unfold valid_contract; simpl; lra. Qed.

(** ** Analytic pricer: closed form and parity *)

Lemma norm_cdf_spec (x : R) : BlackScholesModel.norm_cdf x = Spec.Phi x.
Proof. reflexivity. Qed.

Lemma norm_cdf_reflect (x : R) :
  BlackScholesModel.norm_cdf (- x) = 1 - BlackScholesModel.norm_cdf x.
Proof.
  unfold BlackScholesModel.norm_cdf.
  replace (- - x * M_SQRT1_2) with (- (- x * M_SQRT1_2)) by ring.
  rewrite erfc_reflect. lra.
Qed.

(** C1. On every contract with S, K, T, sigma > 0 the Analytic Pricer
    returns the closed-form value: S Phi(d1) - K e^(-rT) Phi(d2) for a
    Call and K e^(-rT) Phi(-d2) - S Phi(-d1) for a Put, with d1, d2 and
    Phi as the specification words them. *)
Theorem analytic_price_closed_form (opt : EuropeanOption.t) :
  valid_contract opt ->
  BlackScholesModel.price opt = Spec.closed_form opt.
Proof.
  intros _.
  unfold BlackScholesModel.price, Spec.closed_form, Spec.d2, Spec.d1.
  rewrite !norm_cdf_spec.
  replace (EuropeanOption.sigma opt ^ 2)
    with (EuropeanOption.sigma opt * EuropeanOption.sigma opt) by ring.
  replace (- EuropeanOption.r opt * EuropeanOption.T opt)
    with (- (EuropeanOption.r opt * EuropeanOption.T opt)) by ring.
  rewrite <- Rmult_assoc.
  destruct (EuropeanOption.type opt); reflexivity.
Qed.

Lemma analytic_price_closed_form_witness :
  BlackScholesModel.price (sample_contract Call)
  = Spec.closed_form (sample_contract Call).
Proof.
  apply analytic_price_closed_form, sample_contract_valid.
Defined.



(** ** Simulation pricer: the discounted average *)

Lemma draws_length (gen : generator) (n : nat) : length (draws gen n) = n.
Proof. unfold draws. now rewrite length_map, length_seq. Qed.

Lemma draws_succ (gen : generator) (n : nat) :
  draws gen (S n) = gen O :: draws (snd (dist gen)) n.
Proof.
  unfold draws; simpl. f_equal.
  rewrite <- seq_shift, map_map. reflexivity.
Qed.

Lemma terminal_price_code (opt : EuropeanOption.t) (z : R) :
  EuropeanOption.S opt
  * exp ((EuropeanOption.r opt
          - 0.5 * EuropeanOption.sigma opt * EuropeanOption.sigma opt)
         * EuropeanOption.T opt
         + EuropeanOption.sigma opt * sqrt (EuropeanOption.T opt) * z)
  = Spec.terminal_price opt z.
Proof. unfold Spec.terminal_price. do 2 f_equal. ring. Qed.

(** The sampling loop adds up the payoffs of the successive draws. *)
Lemma sampling_loop (opt : EuropeanOption.t) (range : list Z) :
  forall (payoff_sum : R) (gen : generator),
    fst (fold_left (fun st (_ : Z) => MonteCarloModel.draw opt st) range
                   (payoff_sum, gen))
    = payoff_sum
      + Spec.sum_list
          (map (fun z => EuropeanOption.payoff opt (Spec.terminal_price opt z))
               (draws gen (length range))).
Proof.
  induction range as [|i range IH]; intros payoff_sum gen.
  - simpl. unfold Spec.sum_list. simpl. ring.
  - cbn [fold_left length]. rewrite draws_succ.
    unfold MonteCarloModel.draw at 2. cbn [dist fst snd].
    rewrite terminal_price_code, IH. cbn [map dist snd].
    unfold Spec.sum_list. cbn [fold_right]. ring.
Qed.

Lemma simulation_price_eq (m : MonteCarloModel.t) (opt : EuropeanOption.t)
    (w : entropy) :
  MonteCarloModel.price m opt w
  = (Returned
       (exp (- EuropeanOption.r opt * EuropeanOption.T opt)
        * (Spec.sum_list
             (map (fun z =>
                     EuropeanOption.payoff opt (Spec.terminal_price opt z))
                  (draws_of_call m w))
           / IZR (MonteCarloModel.N m))),
     snd (random_device w)).
Proof.
  unfold MonteCarloModel.price, draws_of_call. cbn [random_device fst snd].
  pose proof (sampling_loop opt (seqZ 0 (MonteCarloModel.N m)) 0 (w O)) as H.
  destruct (fold_left _ _ _) as [payoff_sum gen]. cbn [fst] in H.
  rewrite H, length_seqZ, Rplus_0_l. reflexivity.
Qed.

Lemma INR_to_nat (n : Z) : (0 <= n)%Z -> INR (Z.to_nat n) = IZR n.
Proof. intros H. now rewrite INR_IZR_INZ, Z2Nat.id. Qed.

Lemma std_max_0_nonneg (a : R) : 0 <= std_max a 0.
Proof. unfold std_max. destruct (Rlt_dec a 0); lra. Qed.

Lemma payoff_nonneg (opt : EuropeanOption.t) (ST : R) :
  0 <= EuropeanOption.payoff opt ST.
Proof.
  unfold EuropeanOption.payoff.
  destruct (EuropeanOption.type opt); apply std_max_0_nonneg.
Qed.

Lemma sum_list_nonneg (l : list R) :
  Forall (fun x => 0 <= x) l -> 0 <= Spec.sum_list l.
Proof.
  induction 1 as [|x l Hx _ IH]; unfold Spec.sum_list in *; simpl; lra.
Qed.



(** Over the real numbers every price of the simulation is
    non-negative (N > 0). *)
Lemma simulation_value_nonneg
    (m : MonteCarloModel.t) (opt : EuropeanOption.t) (w : entropy) :
  (0 < MonteCarloModel.N m)%Z ->
  exists v : R, fst (MonteCarloModel.price m opt w) = Returned v /\ 0 <= v.
Proof.
  intros HN. rewrite simulation_price_eq. cbn [fst].
  eexists; split; [reflexivity|].
  apply Rmult_le_pos; [left; apply exp_pos|].
  apply Rmult_le_pos.
  - apply sum_list_nonneg, Forall_forall. intros x Hx.
    apply in_map_iff in Hx as (z & <- & _). apply payoff_nonneg.
  - left. apply Rinv_0_lt_compat, IZR_lt. exact HN.
Qed.

(** ** Lattice pricer: the in-place loops and the recursion *)

Lemma int_add_exact (a b : Z) : is_int (a + b) -> int_add a b = (a + b)%Z.
Proof.
  unfold is_int, int_add, wrap_int, INT_MIN, INT_MAX. intros H.
  rewrite Z.mod_small; lia.
Qed.

Lemma outcome_bind_returned {A B : Type} (f : A -> outcome B) (a : A) :
  (Returned a ≫= f) = f a.
Proof. reflexivity. Qed.

Lemma vector_new_length (n : nat) :
  vector_new (Z.of_nat n) = Returned (replicate n 0).
Proof.
  unfold vector_new. destruct (Z.ltb_spec (Z.of_nat n) 0); [lia|].
  now rewrite Nat2Z.id.
Qed.

Lemma vector_get_lookup (v : list R) (i : nat) (x : R) :
  v !! i = Some x -> vector_get v (Z.of_nat i) = Returned x.
Proof.
  intros H. unfold vector_get.
  destruct (Z.ltb_spec (Z.of_nat i) 0); [lia|].
  now rewrite Nat2Z.id, H.
Qed.

Lemma vector_set_middle (pre post : list R) (x y : R) :
  vector_set (pre ++ x :: post) (Z.of_nat (length pre)) y
  = Returned (pre ++ y :: post).
Proof.
  unfold vector_set. rewrite length_app. cbn [length].
  destruct (Z.leb_spec 0 (Z.of_nat (length pre))); [|lia].
  destruct (Z.ltb_spec (Z.of_nat (length pre))
              (Z.of_nat (length pre + S (length post)))); [|lia].
  cbn [andb]. rewrite Nat2Z.id.
  f_equal. rewrite insert_app_r_alt by lia.
  now rewrite Nat.sub_diag.
Qed.

Lemma seqZ_succ (a : Z) (n : nat) :
  seqZ a (Z.of_nat (S n)) = a :: seqZ (a + 1) (Z.of_nat n).
Proof.
  rewrite seqZ_cons by lia. f_equal. f_equal; lia.
Qed.

(** A loop that stores [f i] at every index [i] of its range writes the
    image of the range. *)
Lemma fill_loop (f : Z -> R) (post : list R) :
  forall pre : list R,
    for_each (fun i vals => vector_set vals i (f i))
      (seqZ (Z.of_nat (length pre)) (Z.of_nat (length post))) (pre ++ post)
    = Returned
        (pre ++ map f (seqZ (Z.of_nat (length pre)) (Z.of_nat (length post)))).
Proof.
  induction post as [|x post IH]; intros pre.
  - simpl. now rewrite !app_nil_r.
  - cbn [length]. rewrite seqZ_succ. cbn [for_each map].
    rewrite vector_set_middle, outcome_bind_returned.
    replace (pre ++ f (Z.of_nat (length pre)) :: post)
      with ((pre ++ [f (Z.of_nat (length pre))]) ++ post)
      by now rewrite <- app_assoc.
    replace (Z.of_nat (length pre) + 1)%Z
      with (Z.of_nat (length (pre ++ [f (Z.of_nat (length pre))])))
      by (rewrite length_app; simpl; lia).
    rewrite IH, <- app_assoc. reflexivity.
Qed.

Lemma blend_length (c : R -> R -> R) (n : nat) :
  forall l : list R, length (blend c n l) = length l.
Proof.
  induction n as [|n IH]; intros [|a [|b l]]; try reflexivity.
  cbn [blend length]. now rewrite IH.
Qed.

Lemma blend_lookup (c : R -> R -> R) (n : nat) :
  forall (l : list R) (i : nat) (a b : R),
    (i < n)%nat -> l !! i = Some a -> l !! S i = Some b ->
    blend c n l !! i = Some (c a b).
Proof.
  induction n as [|n IH]; intros l i a b Hi Ha Hb; [lia|].
  destruct l as [|x [|y l]]; try discriminate.
  cbn [blend]. destruct i as [|i].
  - cbn in *. congruence.
  - cbn [lookup list_lookup] in *. apply IH; [lia|assumption..].
Qed.

Section BackwardInduction.

Variables discount p : R.

(** One iteration of the inner loop at the cell that follows [pre]. *)
Lemma backward_cell (pre post : list R) (a b : R) :
  BinomialModel.backward discount p (Z.of_nat (length pre))
    (pre ++ a :: b :: post)
  = Returned (pre ++ node_mean discount p a b :: b :: post).
Proof.
  unfold BinomialModel.backward.
  rewrite (vector_get_lookup _ _ a)
    by (rewrite lookup_app_r, Nat.sub_diag by lia; reflexivity).
  rewrite outcome_bind_returned.
  replace (Z.of_nat (length pre) + 1)%Z with (Z.of_nat (S (length pre)))
    by lia.
  rewrite (vector_get_lookup _ _ b).
  2:{ rewrite lookup_app_r by lia.
      replace (S (length pre) - length pre)%nat with 1%nat by lia.
      reflexivity. }
  rewrite outcome_bind_returned. apply vector_set_middle.
Qed.

(** The inner loop, run in place in ascending order, reads every right
    neighbour before it is overwritten. *)
Lemma backward_loop (n : nat) :
  forall pre post : list R,
    (n < length post)%nat ->
    for_each (BinomialModel.backward discount p)
      (seqZ (Z.of_nat (length pre)) (Z.of_nat n)) (pre ++ post)
    = Returned (pre ++ blend (node_mean discount p) n post).
Proof.
  induction n as [|n IH]; intros pre post Hlen.
  - reflexivity.
  - destruct post as [|a [|b post]]; cbn [length] in Hlen; try lia.
    rewrite seqZ_succ. cbn [for_each blend].
    rewrite backward_cell, outcome_bind_returned.
    replace (pre ++ node_mean discount p a b :: b :: post)
      with ((pre ++ [node_mean discount p a b]) ++ b :: post)
      by now rewrite <- app_assoc.
    replace (Z.of_nat (length pre) + 1)%Z
      with (Z.of_nat (length (pre ++ [node_mean discount p a b])))
      by (rewrite length_app; simpl; lia).
    rewrite IH by (cbn [length]; lia).
    now rewrite <- app_assoc.
Qed.

(** The outer loop: [n] further backward steps on a vector whose first
    [n + 1] cells hold the node values after [k] steps. *)
Lemma backward_induction (g : nat -> R) (n : nat) :
  forall (k : nat) (vals : list R),
    (forall i : nat,
        (i <= n)%nat -> vals !! i = Some (node_values discount p g k i)) ->
    exists vals' : list R,
      for_each
        (fun step => for_each (BinomialModel.backward discount p)
                       (seqZ 0 (step + 1)))
        (reverse (seqZ 0 (Z.of_nat n))) vals
      = Returned vals'
      /\ vals' !! O = Some (node_values discount p g (k + n) O).
Proof.
  induction n as [|n IH]; intros k vals Hvals.
  - exists vals. split; [reflexivity|].
    rewrite Nat.add_0_r. apply Hvals. lia.
  - replace (Z.of_nat (S n)) with (Z.of_nat n + 1)%Z by lia.
    rewrite seqZ_app by lia. rewrite reverse_app.
    replace (seqZ (0 + Z.of_nat n) 1) with [Z.of_nat n] by reflexivity.
    cbn [reverse rev_append app for_each].
    replace (Z.of_nat n + 1)%Z with (Z.of_nat (S n)) by lia.
    pose proof (backward_loop (S n) [] vals) as Hloop.
    change (Z.of_nat (length [])) with 0%Z in Hloop.
    cbn [app] in Hloop. rewrite Hloop.
    2:{ apply lookup_lt_is_Some. rewrite Hvals by lia. eauto. }
    rewrite outcome_bind_returned.
    destruct (IH (S k) (blend (node_mean discount p) (S n) vals))
      as (vals' & Hrun & H0).
    { intros i Hi. cbn [node_values].
      apply blend_lookup; [lia|apply Hvals; lia..]. }
    exists vals'. split; [exact Hrun|].
    rewrite H0. do 2 f_equal. lia.
Qed.

End BackwardInduction.

Lemma powerRZ_of_nat_sub (x : R) (n i : nat) :
  (i <= n)%nat -> powerRZ x (Z.of_nat n - Z.of_nat i) = x ^ (n - i).
Proof.
  intros H. rewrite <- Nat2Z.inj_sub by exact H.
  symmetry. apply pow_powerRZ.
Qed.

Lemma node_values_crr (opt : EuropeanOption.t) (N k : nat) :
  forall i : nat,
    node_values (Spec.crr_discount opt N) (Spec.crr_p opt N)
      (Spec.crr_node opt N O) k i
    = Spec.crr_node opt N k i.
Proof.
  induction k as [|k IH]; intros i; [reflexivity|].
  cbn [node_values Spec.crr_node]. now rewrite !IH.
Qed.

(** The lattice price for a step count whose successor fits in [int]:
    the vector is built, no access leaves it, and the value returned is
    the root of the Cox-Ross-Rubinstein recursion. *)
Lemma lattice_price_eq (m : BinomialModel.t) (opt : EuropeanOption.t) :
  (0 <= BinomialModel.N m < INT_MAX)%Z ->
  BinomialModel.price m opt
  = Returned (Spec.crr_price opt (Z.to_nat (BinomialModel.N m))).
Proof.
  intros HN. destruct m as [N]. cbn [BinomialModel.N] in *.
  assert (HNn : N = Z.of_nat (Z.to_nat N)) by lia.
  set (n := Z.to_nat N) in *. clearbody n. subst N.
  unfold BinomialModel.price. cbn [BinomialModel.N].
  rewrite int_add_exact by (unfold is_int, INT_MIN, INT_MAX in *; lia).
  replace (Z.of_nat n + 1)%Z with (Z.of_nat (S n)) by lia.
  rewrite vector_new_length, outcome_bind_returned.
  rewrite <- INR_IZR_INZ.
  fold (Spec.crr_dt opt n). fold (Spec.crr_u opt n). fold (Spec.crr_d opt n).
  replace (- EuropeanOption.r opt * Spec.crr_dt opt n)
    with (- (EuropeanOption.r opt * Spec.crr_dt opt n)) by ring.
  fold (Spec.crr_p opt n). fold (Spec.crr_discount opt n).
  pose proof (fill_loop
    (fun i => EuropeanOption.payoff opt
                (EuropeanOption.S opt
                 * powerRZ (Spec.crr_u opt n) (Z.of_nat n - i)
                 * powerRZ (Spec.crr_d opt n) i))
    (replicate (S n) 0) []) as Hfill.
  rewrite length_replicate in Hfill.
  change (Z.of_nat (length [])) with 0%Z in Hfill. cbn [app] in Hfill.
  unfold BinomialModel.terminal. cbn [BinomialModel.N].
  rewrite Hfill, outcome_bind_returned. clear Hfill.
  match goal with
  | |- context [for_each _ (reverse _) ?v] => set (vals := v)
  end.
  destruct (backward_induction (Spec.crr_discount opt n) (Spec.crr_p opt n)
              (Spec.crr_node opt n O) n O vals) as (vals' & Hrun & H0).
  { intros i Hi. unfold vals.
    change (@map Z R) with (@fmap list _ Z R).
    rewrite list_lookup_fmap, lookup_seqZ_lt by lia.
    cbn [fmap option_fmap option_map Spec.crr_node]. f_equal.
    rewrite Z.add_0_l, powerRZ_of_nat_sub by lia.
    now rewrite <- pow_powerRZ. }
  rewrite Hrun, outcome_bind_returned.
  change 0%Z with (Z.of_nat O). rewrite (vector_get_lookup _ _ _ H0).
  now rewrite node_values_crr.
Qed.

(** The largest step count: [N + 1] wraps around to [INT_MIN], and the
    vector constructor throws. *)
Lemma lattice_price_INT_MAX (opt : EuropeanOption.t) :
  BinomialModel.price (BinomialModel.mk INT_MAX) opt = Thrown std_length_error.
Proof.
  unfold BinomialModel.price. cbn [BinomialModel.N].
  change (int_add INT_MAX 1) with INT_MIN. reflexivity.
Qed.

(** A step count below [-1]: the vector constructor throws as well. *)
Lemma lattice_price_negative (m : BinomialModel.t) (opt : EuropeanOption.t) :
  (INT_MIN <= BinomialModel.N m < -1)%Z ->
  BinomialModel.price m opt = Thrown std_length_error.
Proof.
  intros HN. unfold BinomialModel.price.
  rewrite int_add_exact by (unfold is_int, INT_MIN, INT_MAX in *; lia).
  unfold vector_new.
  destruct (Z.ltb_spec (BinomialModel.N m + 1) 0); [reflexivity|lia].
Qed.

(** Step count [-1]: the vector is empty and [option_values[0]] reads
    outside it. *)
Lemma lattice_price_minus_1 (opt : EuropeanOption.t) :
  BinomialModel.price (BinomialModel.mk (-1)) opt = Undefined.
Proof. reflexivity. Qed.

(** Step count 0: no backward step, the payoff at the spot price. *)
Lemma lattice_price_0 (opt : EuropeanOption.t) :
  BinomialModel.price (BinomialModel.mk 0) opt
  = Returned (EuropeanOption.payoff opt (EuropeanOption.S opt)).
Proof.
  rewrite lattice_price_eq by (unfold INT_MAX; simpl; lia).
  change (Z.to_nat (BinomialModel.N (BinomialModel.mk 0))) with O.
  unfold Spec.crr_price. cbn [Spec.crr_node Nat.sub pow].
  f_equal. f_equal. ring.
Qed.

Lemma one_step_contract_valid (ty : OptionType) (S0 r0 : R) :
  0 < S0 -> valid_contract (one_step_contract ty S0 r0).
Proof. unfold valid_contract; simpl; lra. Qed.

Lemma steep_contract_valid (ty : OptionType) (S0 : R) :
  0 < S0 -> valid_contract (steep_contract ty S0).
Proof. apply one_step_contract_valid. Qed.

Lemma exp_1_gt_2 : 2 < exp 1.
Proof. assert (H : 1 + 1 < exp 1) by (apply exp_ineq1; lra). lra. Qed.

Lemma inv_exp_1_bounds : 0 < / exp 1 < 1 / 2.
Proof.
  pose proof exp_1_gt_2 as H2.
  assert (Hd : 0 < / exp 1) by (apply Rinv_0_lt_compat; lra).
  split; [exact Hd|].
  apply Rmult_lt_reg_r with (exp 1); [lra|]. rewrite Rinv_l; lra.
Qed.

Lemma one_step_dt (ty : OptionType) (S0 r0 : R) :
  Spec.crr_dt (one_step_contract ty S0 r0) 1 = 1.
Proof. unfold Spec.crr_dt; simpl. field. Qed.

Lemma one_step_u (ty : OptionType) (S0 r0 : R) :
  Spec.crr_u (one_step_contract ty S0 r0) 1 = exp 1.
Proof.
  unfold Spec.crr_u. rewrite one_step_dt, sqrt_1. simpl. f_equal. ring.
Qed.

Lemma one_step_d (ty : OptionType) (S0 r0 : R) :
  Spec.crr_d (one_step_contract ty S0 r0) 1 = / exp 1.
Proof.
  unfold Spec.crr_d. rewrite one_step_u. field.
  pose proof (exp_pos 1); lra.
Qed.

Lemma one_step_p (ty : OptionType) (S0 r0 : R) :
  Spec.crr_p (one_step_contract ty S0 r0) 1
  = (exp r0 - / exp 1) / (exp 1 - / exp 1).
Proof.
  unfold Spec.crr_p. rewrite one_step_d, one_step_u, one_step_dt. simpl.
  now rewrite Rmult_1_r.
Qed.

(** On the steep contract the computed probability exceeds 1. *)
Lemma steep_p_above_1 (ty : OptionType) (S0 : R) :
  1 < Spec.crr_p (steep_contract ty S0) 1.
Proof.
  unfold steep_contract. rewrite one_step_p.
  pose proof exp_1_gt_2 as H2. pose proof inv_exp_1_bounds as Hd.
  assert (He : exp 1 < exp 2) by (apply exp_increasing; lra).
  apply Rmult_lt_reg_r with (exp 1 - / exp 1); [lra|].
  unfold Rdiv. rewrite Rmult_assoc, Rinv_l by lra. lra.
Qed.

(** With r = 0 the computed probability lies in [0,1]. *)
Lemma flat_p_in_range (ty : OptionType) (S0 : R) :
  0 <= Spec.crr_p (one_step_contract ty S0 0) 1 <= 1.
Proof.
  rewrite one_step_p, exp_0.
  pose proof exp_1_gt_2 as H2. pose proof inv_exp_1_bounds as Hd.
  split.
  - apply Rlt_le, Rdiv_lt_0_compat; lra.
  - apply Rmult_le_reg_r with (exp 1 - / exp 1); [lra|].
    unfold Rdiv. rewrite Rmult_assoc, Rinv_l by lra. lra.
Qed.

(** The one-step Put whose up node is out of the money and whose down
    node is in the money. *)
Lemma one_step_put_value (S0 r0 : R) :
  1 <= S0 * exp 1 -> S0 * / exp 1 <= 1 ->
  Spec.crr_price (one_step_contract Put S0 r0) 1
  = Spec.crr_discount (one_step_contract Put S0 r0) 1
    * ((1 - Spec.crr_p (one_step_contract Put S0 r0) 1)
       * (1 - S0 * / exp 1)).
Proof.
  intros Hup Hdn. unfold Spec.crr_price. cbn [Spec.crr_node].
  rewrite one_step_u, one_step_d.
  change (EuropeanOption.S (one_step_contract Put S0 r0)) with S0.
  assert (Hpay : forall x : R,
             EuropeanOption.payoff (one_step_contract Put S0 r0) x
             = std_max (1 - x) 0) by reflexivity.
  rewrite !Hpay. cbn [Nat.sub pow]. rewrite !Rmult_1_r.
  unfold std_max.
  destruct (Rlt_dec (1 - S0 * exp 1) 0) as [_|H1];
    destruct (Rlt_dec (1 - S0 * / exp 1) 0) as [H2|_]; try lra.
  assert (E : S0 * exp 1 = 1) by lra. rewrite E. ring.
Qed.

(** With a probability in [0,1] every node value is non-negative... *)
Lemma crr_node_nonneg (opt : EuropeanOption.t) (N k : nat) :
  0 <= Spec.crr_p opt N <= 1 ->
  forall i : nat, 0 <= Spec.crr_node opt N k i.
Proof.
  intros Hp. induction k as [|k IH]; intros i.
  - apply payoff_nonneg.
  - cbn [Spec.crr_node].
    pose proof (exp_pos (- (EuropeanOption.r opt * Spec.crr_dt opt N))) as Hd.
    fold (Spec.crr_discount opt N) in Hd.
    pose proof (IH i). pose proof (IH (S i)).
    apply Rmult_le_pos; [lra|].
    apply Rplus_le_le_0_compat; apply Rmult_le_pos; lra.
Qed.

(** ... while the steep contract, where p > 1, is priced below zero:
    the out-of-range p goes into the result unclamped. *)
Lemma steep_put_price_negative :
  exists v : R,
    BinomialModel.price (BinomialModel.mk 1) (steep_contract Put 1)
    = Returned v
    /\ v < 0.
Proof.
  eexists. split; [apply lattice_price_eq; unfold INT_MAX; simpl; lia|].
  change (Z.to_nat (BinomialModel.N (BinomialModel.mk 1))) with 1%nat.
  pose proof exp_1_gt_2 as He. pose proof inv_exp_1_bounds as Hd.
  unfold steep_contract. rewrite one_step_put_value by lra.
  pose proof (steep_p_above_1 Put 1) as Hp. unfold steep_contract in Hp.
  pose proof (exp_pos (- (EuropeanOption.r (one_step_contract Put 1 2)
                          * Spec.crr_dt (one_step_contract Put 1 2) 1)))
    as Hdisc.
  fold (Spec.crr_discount (one_step_contract Put 1 2) 1) in Hdisc.
  set (q := Spec.crr_p (one_step_contract Put 1 2) 1) in *.
  set (disc := Spec.crr_discount (one_step_contract Put 1 2) 1) in *.
  assert (Hneg : (1 - q) * (1 - 1 * / exp 1) < 0) by nra.
  nra.
Qed.

(** C2. For every contract with S, K, T, sigma > 0 and every step count
    0 < N < INT_MAX, the Lattice Pricer returns the root value of the
    Cox-Ross-Rubinstein recursion: terminal values payoff(S u^(N-i) d^i),
    each backward step replacing a node by
    discount (p node_i + (1 - p) node_(i+1)). *)
Theorem lattice_price_crr (m : BinomialModel.t) (opt : EuropeanOption.t) :
  valid_contract opt ->
  (0 < BinomialModel.N m < INT_MAX)%Z ->
  BinomialModel.price m opt
  = Returned (Spec.crr_price opt (Z.to_nat (BinomialModel.N m))).
Proof. intros _ HN. apply lattice_price_eq. lia. Qed.

Lemma lattice_price_crr_witness :
  BinomialModel.price (BinomialModel.mk 3) (sample_contract Call)
  = Returned (Spec.crr_price (sample_contract Call) 3).
Proof.
  apply (lattice_price_crr (BinomialModel.mk 3) (sample_contract Call)).
  - apply sample_contract_valid.
  - unfold INT_MAX; simpl; lia.
Defined.

(** C2, as stated for every N > 0, fails at N = INT_MAX: no value is
    returned there. *)
Lemma lattice_recursion_lost_at_INT_MAX :
  valid_contract (sample_contract Call)
  /\ (0 < BinomialModel.N (BinomialModel.mk INT_MAX))%Z
  /\ BinomialModel.price (BinomialModel.mk INT_MAX) (sample_contract Call)
     <> Returned (Spec.crr_price (sample_contract Call) (Z.to_nat INT_MAX)).
Proof.
  split; [apply sample_contract_valid|]. split; [reflexivity|].
  rewrite lattice_price_INT_MAX. discriminate.
Qed.

(** C9. The computed probability p is used as it is: for every contract
    with S, K, T, sigma > 0 and every step count 0 < N < INT_MAX the
    Lattice Pricer runs to completion and returns a number, the
    recursion evaluated with p = (exp(r dt) - d)/(u - d) whether or not
    p lies in [0,1]. *)
Theorem lattice_price_completes (m : BinomialModel.t) (opt : EuropeanOption.t) :
  valid_contract opt ->
  (0 < BinomialModel.N m < INT_MAX)%Z ->
  exists v : R,
    BinomialModel.price m opt = Returned v
    /\ v = node_values
             (Spec.crr_discount opt (Z.to_nat (BinomialModel.N m)))
             (Spec.crr_p opt (Z.to_nat (BinomialModel.N m)))
             (Spec.crr_node opt (Z.to_nat (BinomialModel.N m)) O)
             (Z.to_nat (BinomialModel.N m)) O.
Proof.
  intros _ HN. eexists. split; [apply lattice_price_eq; lia|].
  unfold Spec.crr_price. now rewrite node_values_crr.
Qed.

(** The witness has p > 1. *)
Lemma lattice_price_completes_witness :
  1 < Spec.crr_p (steep_contract Put 1) 1
  /\ exists v : R,
       BinomialModel.price (BinomialModel.mk 1) (steep_contract Put 1)
       = Returned v
       /\ v = node_values
                (Spec.crr_discount (steep_contract Put 1) 1)
                (Spec.crr_p (steep_contract Put 1) 1)
                (Spec.crr_node (steep_contract Put 1) 1 O) 1 O.
Proof.
  split; [apply steep_p_above_1|].
  apply (lattice_price_completes (BinomialModel.mk 1) (steep_contract Put 1)).
  - apply steep_contract_valid; lra.
  - unfold INT_MAX; simpl; lia.
Defined.

(** C9, as stated for every N > 0, fails at N = INT_MAX: the call ends
    in an exception. *)
Lemma lattice_price_raises_at_INT_MAX :
  valid_contract (sample_contract Put)
  /\ (0 < BinomialModel.N (BinomialModel.mk INT_MAX))%Z
  /\ BinomialModel.price (BinomialModel.mk INT_MAX) (sample_contract Put)
     = Thrown std_length_error
  /\ ~ (exists v : R,
          BinomialModel.price (BinomialModel.mk INT_MAX) (sample_contract Put)
          = Returned v).
Proof.
  split; [apply sample_contract_valid|]. split; [reflexivity|].
  rewrite lattice_price_INT_MAX. split; [reflexivity|].
  intros [v Hv]. discriminate.
Qed.

(** ** Validation *)

Lemma degenerate_lattice_value :
  Spec.crr_price degenerate_contract 1 = 1.
Proof.
  unfold Spec.crr_price. cbn [Spec.crr_node].
  unfold EuropeanOption.payoff, degenerate_contract.
  cbn [EuropeanOption.type EuropeanOption.S EuropeanOption.K].
  rewrite !Rmult_0_l, Rminus_0_r.
  unfold std_max. destruct (Rlt_dec 1 0) as [H|_]; [lra|].
  unfold Spec.crr_discount. cbn [EuropeanOption.r].
  rewrite Rmult_0_l, Ropp_0, exp_0. ring.
Qed.

(** C5. No operation validates the contract: for every contract, its
    parameters positive or not, construction succeeds and each price()
    returns normally (the Lattice Pricer for a step count
    0 <= N < INT_MAX); no validation error is ever raised. *)
Theorem price_without_validation
    (opt : EuropeanOption.t) (mc : MonteCarloModel.t) (bm : BinomialModel.t)
    (w : entropy) :
  (0 <= BinomialModel.N bm < INT_MAX)%Z ->
  EuropeanOption.new (EuropeanOption.S opt) (EuropeanOption.K opt)
    (EuropeanOption.T opt) (EuropeanOption.r opt) (EuropeanOption.sigma opt)
    (EuropeanOption.type opt) = Returned opt
  /\ (exists v : R, fst (price BlackScholes opt w) = Returned v)
  /\ (exists v : R, fst (price (MonteCarlo mc) opt w) = Returned v)
  /\ (exists v : R, fst (price (Binomial bm) opt w) = Returned v).
Proof.
  intros HN. repeat split.
  - destruct opt; reflexivity.
  - eexists; reflexivity.
  - cbn [price]. rewrite simulation_price_eq. eexists; reflexivity.
  - cbn [price fst]. rewrite lattice_price_eq by exact HN.
    eexists; reflexivity.
Qed.

Lemma price_without_validation_witness :
  EuropeanOption.new 0 1 1 0 1 Put = Returned degenerate_contract
  /\ (exists v : R,
        fst (price BlackScholes degenerate_contract (constant_entropy 0))
        = Returned v)
  /\ (exists v : R,
        fst (price (MonteCarlo (MonteCarloModel.mk 1)) degenerate_contract
               (constant_entropy 0)) = Returned v)
  /\ (exists v : R,
        fst (price (Binomial (BinomialModel.mk 1)) degenerate_contract
               (constant_entropy 0)) = Returned v).
Proof.
  apply (price_without_validation degenerate_contract (MonteCarloModel.mk 1)
           (BinomialModel.mk 1) (constant_entropy 0)).
  unfold INT_MAX; simpl; lia.
Defined.

(** C5, as stated, fails: the contract with S = 0 is constructed and
    priced, the lattice silently returning 1. *)
Lemma degenerate_contract_priced :
  EuropeanOption.S degenerate_contract <= 0
  /\ EuropeanOption.new 0 1 1 0 1 Put = Returned degenerate_contract
  /\ fst (price BlackScholes degenerate_contract (constant_entropy 0))
     = Returned (BlackScholesModel.price degenerate_contract)
  /\ fst (price (Binomial (BinomialModel.mk 1)) degenerate_contract
            (constant_entropy 0)) = Returned 1.
Proof.
  repeat split.
  - simpl; lra.
  - cbn [price fst]. rewrite lattice_price_eq by (unfold INT_MAX; simpl; lia).
    change (Z.to_nat (BinomialModel.N (BinomialModel.mk 1))) with 1%nat.
    now rewrite degenerate_lattice_value.
Qed.

(** C6. The constructors of the Simulation and Lattice pricers accept
    every [int]: the count, positive or not, is stored unchecked and the
    pricer is returned. *)
Theorem pricer_construction_unchecked (n : Z) :
  (exists m : MonteCarloModel.t,
     MonteCarloModel.new n = Returned m /\ MonteCarloModel.N m = n)
  /\ (exists m : BinomialModel.t,
        BinomialModel.new n = Returned m /\ BinomialModel.N m = n).
Proof. split; eexists; split; reflexivity. Qed.

(** C6, as stated, fails: pricers with counts 0 and -5 are produced. *)
Lemma nonpositive_count_accepted :
  (0 <= 0)%Z /\ (-5 <= 0)%Z
  /\ MonteCarloModel.new 0 = Returned (MonteCarloModel.mk 0)
  /\ BinomialModel.new (-5) = Returned (BinomialModel.mk (-5))
  /\ ~ (exists e : exn, MonteCarloModel.new 0 = Thrown e)
  /\ ~ (exists e : exn, BinomialModel.new (-5) = Thrown e).
Proof.
  repeat split; try lia; intros [e He]; discriminate.
Qed.

(** ** Determinism *)

Lemma lattice_outcome_defined (m : BinomialModel.t) (opt : EuropeanOption.t) :
  (0 < BinomialModel.N m)%Z -> is_int (BinomialModel.N m) ->
  BinomialModel.price m opt <> Undefined.
Proof.
  intros Hpos [_ Hmax].
  destruct (Z.eq_dec (BinomialModel.N m) INT_MAX) as [E|E].
  - destruct m as [N]. cbn [BinomialModel.N] in E. subst N.
    rewrite lattice_price_INT_MAX. discriminate.
  - rewrite lattice_price_eq by lia. discriminate.
Qed.

(** C7. The Analytic Pricer and, for a step count N > 0, the Lattice
    Pricer are functions of the contract (and N) alone: two invocations,
    whatever the state of the entropy source at each, end in the same
    defined outcome - the same returned value - and leave the entropy
    source untouched. *)
Theorem analytic_and_lattice_deterministic
    (opt : EuropeanOption.t) (m : BinomialModel.t) (w1 w2 : entropy) :
  (0 < BinomialModel.N m)%Z -> is_int (BinomialModel.N m) ->
  (exists v : R,
     price BlackScholes opt w1 = (Returned v, w1)
     /\ price BlackScholes opt w2 = (Returned v, w2))
  /\ (exists o : outcome R,
        o <> Undefined
        /\ price (Binomial m) opt w1 = (o, w1)
        /\ price (Binomial m) opt w2 = (o, w2)
        /\ ((BinomialModel.N m < INT_MAX)%Z -> exists v : R, o = Returned v)).
Proof.
  intros Hpos Hint. split.
  - eexists; split; reflexivity.
  - exists (BinomialModel.price m opt).
    split; [now apply lattice_outcome_defined|].
    repeat split. intros Hlt. rewrite lattice_price_eq by lia.
    eexists; reflexivity.
Qed.

Lemma analytic_and_lattice_deterministic_witness :
  (exists v : R,
     price BlackScholes (sample_contract Call) (constant_entropy 0)
     = (Returned v, constant_entropy 0)
     /\ price BlackScholes (sample_contract Call) (constant_entropy 1)
        = (Returned v, constant_entropy 1))
  /\ (exists o : outcome R,
        o <> Undefined
        /\ price (Binomial (BinomialModel.mk 3)) (sample_contract Call)
             (constant_entropy 0) = (o, constant_entropy 0)
        /\ price (Binomial (BinomialModel.mk 3)) (sample_contract Call)
             (constant_entropy 1) = (o, constant_entropy 1)
        /\ ((BinomialModel.N (BinomialModel.mk 3) < INT_MAX)%Z ->
            exists v : R, o = Returned v)).
Proof.
  apply (analytic_and_lattice_deterministic (sample_contract Call)
           (BinomialModel.mk 3) (constant_entropy 0) (constant_entropy 1)).
  - simpl; lia.
  - unfold is_int, INT_MIN, INT_MAX; simpl; lia.
Defined.

(** ** Monotonicity in the spot price: lattice and simulation *)

Lemma std_max_0_mono (a b : R) : a <= b -> std_max a 0 <= std_max b 0.
Proof.
  unfold std_max. intros H.
  destruct (Rlt_dec a 0), (Rlt_dec b 0); lra.
Qed.

(** The payoff of a Call grows, that of a Put shrinks, with the
    terminal price; it does not read the spot price. *)
Lemma payoff_call_mono (opt : EuropeanOption.t) (S1 S2 x y : R) :
  EuropeanOption.type opt = Call -> x <= y ->
  EuropeanOption.payoff (with_S opt S1) x
  <= EuropeanOption.payoff (with_S opt S2) y.
Proof.
  intros Hty Hxy. unfold EuropeanOption.payoff, with_S.
  cbn [EuropeanOption.type EuropeanOption.K]. rewrite Hty.
  apply std_max_0_mono. lra.
Qed.

Lemma payoff_put_anti (opt : EuropeanOption.t) (S1 S2 x y : R) :
  EuropeanOption.type opt = Put -> x <= y ->
  EuropeanOption.payoff (with_S opt S2) y
  <= EuropeanOption.payoff (with_S opt S1) x.
Proof.
  intros Hty Hxy. unfold EuropeanOption.payoff, with_S.
  cbn [EuropeanOption.type EuropeanOption.K]. rewrite Hty.
  apply std_max_0_mono. lra.
Qed.

Lemma crr_u_pos (opt : EuropeanOption.t) (N : nat) : 0 < Spec.crr_u opt N.
Proof. apply exp_pos. Qed.

Lemma crr_d_pos (opt : EuropeanOption.t) (N : nat) : 0 < Spec.crr_d opt N.
Proof.
  unfold Spec.crr_d. apply Rdiv_lt_0_compat; [lra|apply crr_u_pos].
Qed.

Lemma crr_discount_pos (opt : EuropeanOption.t) (N : nat) :
  0 < Spec.crr_discount opt N.
Proof. apply exp_pos. Qed.

(** Node prices grow with the spot price. *)
Lemma node_price_mono (opt : EuropeanOption.t) (N a b : nat) (S1 S2 : R) :
  S1 <= S2 ->
  S1 * Spec.crr_u opt N ^ a * Spec.crr_d opt N ^ b
  <= S2 * Spec.crr_u opt N ^ a * Spec.crr_d opt N ^ b.
Proof.
  intros H.
  pose proof (pow_lt _ a (crr_u_pos opt N)) as Hu.
  pose proof (pow_lt _ b (crr_d_pos opt N)) as Hd.
  rewrite !Rmult_assoc. apply Rmult_le_compat_r; [|exact H].
  apply Rlt_le, Rmult_lt_0_compat; assumption.
Qed.

Section LatticeMonotone.

Variables (opt : EuropeanOption.t) (N : nat) (S1 S2 : R).
Hypothesis HS : S1 <= S2.
Hypothesis Hp : 0 <= Spec.crr_p opt N <= 1.

(** The lattice parameters do not read the spot price. *)
Lemma crr_node_with_S_step (S0 : R) (k i : nat) :
  Spec.crr_node (with_S opt S0) N (S k) i
  = Spec.crr_discount opt N
    * (Spec.crr_p opt N * Spec.crr_node (with_S opt S0) N k i
       + (1 - Spec.crr_p opt N) * Spec.crr_node (with_S opt S0) N k (S i)).
Proof. reflexivity. Qed.

Lemma crr_node_with_S_base (S0 : R) (i : nat) :
  Spec.crr_node (with_S opt S0) N O i
  = EuropeanOption.payoff (with_S opt S0)
      (S0 * Spec.crr_u opt N ^ (N - i) * Spec.crr_d opt N ^ i).
Proof. reflexivity. Qed.

Lemma crr_node_call_mono (k : nat) :
  EuropeanOption.type opt = Call ->
  forall i : nat,
    Spec.crr_node (with_S opt S1) N k i <= Spec.crr_node (with_S opt S2) N k i.
Proof.
  intros Hty. induction k as [|k IH]; intros i.
  - rewrite !crr_node_with_S_base.
    apply payoff_call_mono; [exact Hty|apply node_price_mono, HS].
  - rewrite !crr_node_with_S_step.
    pose proof (crr_discount_pos opt N) as Hd.
    pose proof (IH i) as Ha. pose proof (IH (S i)) as Hb.
    apply Rmult_le_compat_l; [lra|].
    apply Rplus_le_compat; apply Rmult_le_compat_l; lra.
Qed.

Lemma crr_node_put_anti (k : nat) :
  EuropeanOption.type opt = Put ->
  forall i : nat,
    Spec.crr_node (with_S opt S2) N k i <= Spec.crr_node (with_S opt S1) N k i.
Proof.
  intros Hty. induction k as [|k IH]; intros i.
  - rewrite !crr_node_with_S_base.
    apply payoff_put_anti; [exact Hty|apply node_price_mono, HS].
  - rewrite !crr_node_with_S_step.
    pose proof (crr_discount_pos opt N) as Hd.
    pose proof (IH i) as Ha. pose proof (IH (S i)) as Hb.
    apply Rmult_le_compat_l; [lra|].
    apply Rplus_le_compat; apply Rmult_le_compat_l; lra.
Qed.

End LatticeMonotone.

Section SimulationMonotone.

Variables (opt : EuropeanOption.t) (S1 S2 : R).
Hypothesis HS : S1 <= S2.

Lemma terminal_price_mono (z : R) :
  Spec.terminal_price (with_S opt S1) z
  <= Spec.terminal_price (with_S opt S2) z.
Proof.
  unfold Spec.terminal_price, with_S.
  cbn [EuropeanOption.S EuropeanOption.r EuropeanOption.sigma EuropeanOption.T].
  apply Rmult_le_compat_r; [left; apply exp_pos|exact HS].
Qed.

Lemma payoff_sum_call_mono (zs : list R) :
  EuropeanOption.type opt = Call ->
  Spec.sum_list
    (map (fun z => EuropeanOption.payoff (with_S opt S1)
                     (Spec.terminal_price (with_S opt S1) z)) zs)
  <= Spec.sum_list
       (map (fun z => EuropeanOption.payoff (with_S opt S2)
                        (Spec.terminal_price (with_S opt S2) z)) zs).
Proof.
  intros Hty. induction zs as [|z zs IH]; unfold Spec.sum_list in *; simpl.
  - lra.
  - apply Rplus_le_compat; [|exact IH].
    apply payoff_call_mono; [exact Hty|apply terminal_price_mono].
Qed.

Lemma payoff_sum_put_anti (zs : list R) :
  EuropeanOption.type opt = Put ->
  Spec.sum_list
    (map (fun z => EuropeanOption.payoff (with_S opt S2)
                     (Spec.terminal_price (with_S opt S2) z)) zs)
  <= Spec.sum_list
       (map (fun z => EuropeanOption.payoff (with_S opt S1)
                        (Spec.terminal_price (with_S opt S1) z)) zs).
Proof.
  intros Hty. induction zs as [|z zs IH]; unfold Spec.sum_list in *; simpl.
  - lra.
  - apply Rplus_le_compat; [|exact IH].
    apply payoff_put_anti; [exact Hty|apply terminal_price_mono].
Qed.

End SimulationMonotone.


(** ** The simulation depends on its draws *)

(** One sample from a generator that yields [z]. *)
Lemma simulation_one_draw (opt : EuropeanOption.t) (z : R) :
  fst (MonteCarloModel.price (MonteCarloModel.mk 1) opt (constant_entropy z))
  = Returned
      (exp (- EuropeanOption.r opt * EuropeanOption.T opt)
       * EuropeanOption.payoff opt (Spec.terminal_price opt z)).
Proof.
  rewrite simulation_price_eq. cbn [fst]. f_equal. f_equal.
  change (draws_of_call (MonteCarloModel.mk 1) (constant_entropy z))
    with [z].
  unfold Spec.sum_list. cbn [map fold_right MonteCarloModel.N]. field.
Qed.

Lemma terminal_price_unit_T (S0 K0 r0 sigma0 z : R) (ty : OptionType) :
  Spec.terminal_price (EuropeanOption.mk S0 K0 1 r0 sigma0 ty) z
  = S0 * exp (r0 - 0.5 * sigma0 ^ 2 + sigma0 * z).
Proof.
  unfold Spec.terminal_price.
  cbn [EuropeanOption.S EuropeanOption.r EuropeanOption.sigma EuropeanOption.T].
  rewrite sqrt_1. f_equal. f_equal. ring.
Qed.

(** Two calls on the same contract that see different draws return
    different prices, here a smaller one on the draw 0 than on the draw
    2: the Simulation Pricer is not a function of the contract alone. *)
Lemma simulation_depends_on_draws :
  exists v0 v2 : R,
    fst (price (MonteCarlo (MonteCarloModel.mk 1)) (one_step_contract Call 1 0)
           (constant_entropy 0)) = Returned v0
    /\ fst (price (MonteCarlo (MonteCarloModel.mk 1))
              (one_step_contract Call 1 0) (constant_entropy 2)) = Returned v2
    /\ v0 < v2.
Proof.
  do 2 eexists. cbn [price]. rewrite !simulation_one_draw.
  split; [reflexivity|]. split; [reflexivity|].
  unfold one_step_contract. rewrite !terminal_price_unit_T.
  cbn [EuropeanOption.r EuropeanOption.T].
  unfold EuropeanOption.payoff. cbn [EuropeanOption.type EuropeanOption.K].
  replace (- 0 * 1) with 0 by ring. rewrite exp_0, !Rmult_1_l.
  replace (0 - 0.5 * 1 ^ 2 + 0) with (- 0.5) by lra.
  replace (0 - 0.5 * 1 ^ 2 + 2) with 1.5 by lra.
  assert (Hhigh : 1 + 1.5 < exp 1.5) by (apply exp_ineq1; lra).
  assert (Hlt : exp (- 0.5) < 1).
  { pose proof (exp_increasing (- 0.5) 0) as H.
    rewrite exp_0 in H. apply H. lra. }
  unfold std_max.
  destruct (Rlt_dec (exp (- 0.5) - 1) 0);
    destruct (Rlt_dec (exp 1.5 - 1) 0); lra.
Qed.

(** On one and the same draw Z = -1 the simulated Call price falls when
    sigma goes from 0.1 to 1 (S = 2, K = 1, T = 1, r = 0). *)
Lemma simulation_call_falls_with_sigma :
  exists v1 v2 : R,
    fst (MonteCarloModel.price (MonteCarloModel.mk 1)
           (EuropeanOption.mk 2 1 1 0 0.1 Call) (constant_entropy (-1)))
    = Returned v1
    /\ fst (MonteCarloModel.price (MonteCarloModel.mk 1)
              (EuropeanOption.mk 2 1 1 0 1 Call) (constant_entropy (-1)))
       = Returned v2
    /\ v2 < v1.
Proof.
  do 2 eexists. rewrite !simulation_one_draw. split; [reflexivity|].
  split; [reflexivity|].
  rewrite !terminal_price_unit_T.
  cbn [EuropeanOption.r EuropeanOption.T].
  unfold EuropeanOption.payoff. cbn [EuropeanOption.type EuropeanOption.K].
  replace (- 0 * 1) with 0 by ring. rewrite exp_0, !Rmult_1_l.
  replace (0 - 0.5 * 0.1 ^ 2 + 0.1 * -1) with (- 0.105) by lra.
  replace (0 - 0.5 * 1 ^ 2 + -1) with (- 1.5) by lra.
  assert (Hsmall : 1 + - 0.105 < exp (- 0.105)) by (apply exp_ineq1; lra).
  assert (Hbig : 1 + 1.5 < exp 1.5) by (apply exp_ineq1; lra).
  pose proof (exp_pos (- 1.5)) as Hpos.
  assert (Hinv : exp (- 1.5) * exp 1.5 = 1).
  { rewrite <- exp_plus. replace (- 1.5 + 1.5) with 0 by lra. apply exp_0. }
  assert (Hup : 2 * exp (- 1.5) < 1) by nra.
  unfold std_max.
  destruct (Rlt_dec (2 * exp (- 0.105) - 1) 0);
    destruct (Rlt_dec (2 * exp (- 1.5) - 1) 0); lra.
Qed.

(** ** Monotonicity of the lattice in the volatility *)

Lemma crr_node_lattice_value (opt : EuropeanOption.t) (N k : nat) :
  forall i : nat, (i + k <= N)%nat ->
    Spec.crr_node opt N k i
    = lattice_value (EuropeanOption.payoff opt) (Spec.crr_discount opt N)
        (Spec.crr_p opt N) (Spec.crr_u opt N) (Spec.crr_d opt N) k
        (EuropeanOption.S opt * Spec.crr_u opt N ^ (N - k - i)
         * Spec.crr_d opt N ^ i).
Proof.
  induction k as [|k IH]; intros i Hi.
  - cbn [Spec.crr_node lattice_value]. now rewrite Nat.sub_0_r.
  - cbn [Spec.crr_node lattice_value].
    rewrite (IH i), (IH (S i)) by lia.
    replace (N - k - i)%nat with (S (N - S k - i)) by lia.
    replace (N - k - S i)%nat with (N - S k - i)%nat by lia.
    cbn [pow]. do 3 f_equal; f_equal; ring.
Qed.

Lemma crr_price_lattice_value (opt : EuropeanOption.t) (N : nat) :
  Spec.crr_price opt N
  = lattice_value (EuropeanOption.payoff opt) (Spec.crr_discount opt N)
      (Spec.crr_p opt N) (Spec.crr_u opt N) (Spec.crr_d opt N) N
      (EuropeanOption.S opt).
Proof.
  unfold Spec.crr_price. rewrite crr_node_lattice_value by lia.
  rewrite Nat.sub_diag. cbn [Nat.sub pow]. f_equal. ring.
Qed.

Lemma std_max_0_convex (a b : R) :
  convex (fun x => std_max (a * x + b) 0).
Proof.
  intros x y t Ht. unfold std_max.
  destruct (Rlt_dec (a * (t * x + (1 - t) * y) + b) 0);
    destruct (Rlt_dec (a * x + b) 0); destruct (Rlt_dec (a * y + b) 0);
    nra.
Qed.

Lemma payoff_convex (opt : EuropeanOption.t) :
  convex (EuropeanOption.payoff opt).
Proof.
  unfold EuropeanOption.payoff. destruct (EuropeanOption.type opt).
  - intros x y t Ht.
    pose proof (std_max_0_convex 1 (- EuropeanOption.K opt) x y t Ht) as H.
    cbn beta in H.
    replace (1 * (t * x + (1 - t) * y) + - EuropeanOption.K opt)
      with (t * x + (1 - t) * y - EuropeanOption.K opt) in H by ring.
    replace (1 * x + - EuropeanOption.K opt)
      with (x - EuropeanOption.K opt) in H by ring.
    replace (1 * y + - EuropeanOption.K opt)
      with (y - EuropeanOption.K opt) in H by ring.
    exact H.
  - intros x y t Ht.
    pose proof (std_max_0_convex (-1) (EuropeanOption.K opt) x y t Ht) as H.
    cbn beta in H.
    replace (-1 * (t * x + (1 - t) * y) + EuropeanOption.K opt)
      with (EuropeanOption.K opt - (t * x + (1 - t) * y)) in H by ring.
    replace (-1 * x + EuropeanOption.K opt)
      with (EuropeanOption.K opt - x) in H by ring.
    replace (-1 * y + EuropeanOption.K opt)
      with (EuropeanOption.K opt - y) in H by ring.
    exact H.
Qed.

Lemma lattice_value_convex (f : R -> R) (discount p u d : R) (k : nat) :
  convex f -> 0 <= discount -> 0 <= p <= 1 ->
  convex (lattice_value f discount p u d k).
Proof.
  intros Hf Hdisc Hp. induction k as [|k IH]; [exact Hf|].
  intros x y t Ht. cbn [lattice_value].
  pose proof (IH (x * u) (y * u) t Ht) as Hu.
  pose proof (IH (x * d) (y * d) t Ht) as Hd.
  replace ((t * x + (1 - t) * y) * u) with (t * (x * u) + (1 - t) * (y * u))
    by ring.
  replace ((t * x + (1 - t) * y) * d) with (t * (x * d) + (1 - t) * (y * d))
    by ring.
  set (A := lattice_value f discount p u d k) in *.
  assert (Hmix : p * A (t * (x * u) + (1 - t) * (y * u))
                 + (1 - p) * A (t * (x * d) + (1 - t) * (y * d))
                 <= t * (p * A (x * u) + (1 - p) * A (x * d))
                    + (1 - t) * (p * A (y * u) + (1 - p) * A (y * d))).
  { assert (H1 : p * A (t * (x * u) + (1 - t) * (y * u))
                 <= p * (t * A (x * u) + (1 - t) * A (y * u)))
      by (apply Rmult_le_compat_l; lra).
    assert (H2 : (1 - p) * A (t * (x * d) + (1 - t) * (y * d))
                 <= (1 - p) * (t * A (x * d) + (1 - t) * A (y * d)))
      by (apply Rmult_le_compat_l; lra).
    lra. }
  replace (t * (discount * (p * A (x * u) + (1 - p) * A (x * d)))
           + (1 - t) * (discount * (p * A (y * u) + (1 - p) * A (y * d))))
    with (discount * (t * (p * A (x * u) + (1 - p) * A (x * d))
                      + (1 - t) * (p * A (y * u) + (1 - p) * A (y * d))))
    by ring.
  apply Rmult_le_compat_l; assumption.
Qed.

(** A two-point law with the same mean and a wider support gives a
    convex function a larger mean. *)
Lemma two_point_spread (f : R -> R) (s m p1 u1 d1 p2 u2 d2 : R) :
  convex f ->
  d2 <= d1 -> d1 <= u2 -> d2 <= u1 -> u1 <= u2 -> d2 < u2 ->
  0 <= p1 <= 1 ->
  p1 * u1 + (1 - p1) * d1 = m ->
  p2 * u2 + (1 - p2) * d2 = m ->
  p1 * f (s * u1) + (1 - p1) * f (s * d1)
  <= p2 * f (s * u2) + (1 - p2) * f (s * d2).
Proof.
  intros Hf Hdd Hdu Hud Huu Hlt Hp1 Hm1 Hm2.
  set (a := (u1 - d2) / (u2 - d2)).
  set (b := (d1 - d2) / (u2 - d2)).
  assert (Hw : 0 < / (u2 - d2)) by (apply Rinv_0_lt_compat; lra).
  assert (Ha : 0 <= a <= 1).
  { unfold a, Rdiv. split.
    - apply Rmult_le_pos; lra.
    - apply Rmult_le_reg_r with (u2 - d2); [lra|].
      rewrite Rmult_assoc, Rinv_l by lra. lra. }
  assert (Hb : 0 <= b <= 1).
  { unfold b, Rdiv. split.
    - apply Rmult_le_pos; lra.
    - apply Rmult_le_reg_r with (u2 - d2); [lra|].
      rewrite Rmult_assoc, Rinv_l by lra. lra. }
  assert (Eu : s * u1 = a * (s * u2) + (1 - a) * (s * d2))
    by (unfold a; field; lra).
  assert (Ed : s * d1 = b * (s * u2) + (1 - b) * (s * d2))
    by (unfold b; field; lra).
  assert (Ep : p2 = p1 * a + (1 - p1) * b).
  { unfold a, b. apply Rmult_eq_reg_r with (u2 - d2); [|lra].
    replace ((p1 * ((u1 - d2) / (u2 - d2))
              + (1 - p1) * ((d1 - d2) / (u2 - d2))) * (u2 - d2))
      with (p1 * u1 + (1 - p1) * d1 - d2) by (field; lra).
    lra. }
  pose proof (Hf (s * u2) (s * d2) a Ha) as Hfa. rewrite <- Eu in Hfa.
  pose proof (Hf (s * u2) (s * d2) b Hb) as Hfb. rewrite <- Ed in Hfb.
  assert (H1 : p1 * f (s * u1)
               <= p1 * (a * f (s * u2) + (1 - a) * f (s * d2)))
    by (apply Rmult_le_compat_l; lra).
  assert (H2 : (1 - p1) * f (s * d1)
               <= (1 - p1) * (b * f (s * u2) + (1 - b) * f (s * d2)))
    by (apply Rmult_le_compat_l; lra).
  rewrite Ep. lra.
Qed.

(** More spread per step, same mean per step: a larger lattice value. *)
Lemma lattice_value_spread (f : R -> R)
    (discount m p1 u1 d1 p2 u2 d2 : R) (k : nat) :
  convex f -> 0 <= discount ->
  d2 <= d1 -> d1 <= u2 -> d2 <= u1 -> u1 <= u2 -> d2 < u2 ->
  0 <= p1 <= 1 -> 0 <= p2 <= 1 ->
  p1 * u1 + (1 - p1) * d1 = m ->
  p2 * u2 + (1 - p2) * d2 = m ->
  forall s : R,
    lattice_value f discount p1 u1 d1 k s
    <= lattice_value f discount p2 u2 d2 k s.
Proof.
  intros Hf Hdisc Hdd Hdu Hud Huu Hlt Hp1 Hp2 Hm1 Hm2.
  induction k as [|k IH]; intros s; [apply Rle_refl|].
  cbn [lattice_value]. apply Rmult_le_compat_l; [exact Hdisc|].
  eapply Rle_trans.
  - apply Rplus_le_compat; apply Rmult_le_compat_l;
      [lra|apply IH|lra|apply IH].
  - apply (two_point_spread _ s m); try assumption.
    now apply lattice_value_convex.
Qed.

Section LatticeVolatility.

Variables (opt : EuropeanOption.t) (N : nat) (sigma1 sigma2 : R).
Hypothesis HT : 0 < EuropeanOption.T opt.
Hypothesis HN : (0 < N)%nat.
Hypothesis Hsigma1 : 0 < sigma1.
Hypothesis Hsigma : sigma1 <= sigma2.
Hypothesis Hp : 0 <= Spec.crr_p (with_sigma opt sigma1) N <= 1.

Let dt : R := Spec.crr_dt opt N.
Let u1 : R := Spec.crr_u (with_sigma opt sigma1) N.
Let u2 : R := Spec.crr_u (with_sigma opt sigma2) N.
Let m : R := exp (EuropeanOption.r opt * dt).

Lemma crr_dt_pos : 0 < dt.
Proof.
  unfold dt, Spec.crr_dt. apply Rdiv_lt_0_compat; [exact HT|].
  apply lt_0_INR. exact HN.
Qed.

Lemma crr_u1_gt_1 : 1 < u1.
Proof.
  unfold u1, Spec.crr_u. rewrite <- exp_0. apply exp_increasing.
  apply Rmult_lt_0_compat; [exact Hsigma1|].
  apply sqrt_lt_R0. exact crr_dt_pos.
Qed.

Lemma crr_u1_le_u2 : u1 <= u2.
Proof.
  unfold u1, u2, Spec.crr_u.
  cbn [with_sigma EuropeanOption.sigma].
  destruct (Req_dec sigma1 sigma2) as [->|Hne]; [apply Rle_refl|].
  left. apply exp_increasing. apply Rmult_lt_compat_r; [|lra].
  apply sqrt_lt_R0. exact crr_dt_pos.
Qed.

Lemma crr_p_mean (sigma0 : R) :
  1 < Spec.crr_u (with_sigma opt sigma0) N ->
  Spec.crr_p (with_sigma opt sigma0) N * Spec.crr_u (with_sigma opt sigma0) N
  + (1 - Spec.crr_p (with_sigma opt sigma0) N)
    * (/ Spec.crr_u (with_sigma opt sigma0) N) = m.
Proof.
  intros Hu. unfold Spec.crr_p, Spec.crr_d.
  change (Spec.crr_dt (with_sigma opt sigma0) N) with dt.
  change (EuropeanOption.r (with_sigma opt sigma0))
    with (EuropeanOption.r opt).
  fold m. set (u := Spec.crr_u (with_sigma opt sigma0) N) in *.
  assert (Hd : / u < 1).
  { apply Rmult_lt_reg_r with u; [lra|]. rewrite Rinv_l; lra. }
  field. split; [lra|apply Rgt_not_eq; nra].
Qed.

Lemma inv_le_of_ge_1 (a b : R) : 1 <= a -> a <= b -> / b <= / a.
Proof.
  intros Ha Hab. apply Rinv_le_contravar; lra.
Qed.

Lemma crr_price_sigma_mono :
  Spec.crr_price (with_sigma opt sigma1) N
  <= Spec.crr_price (with_sigma opt sigma2) N.
Proof.
  rewrite !crr_price_lattice_value.
  change (EuropeanOption.payoff (with_sigma opt sigma2))
    with (EuropeanOption.payoff (with_sigma opt sigma1)).
  change (EuropeanOption.S (with_sigma opt sigma2))
    with (EuropeanOption.S (with_sigma opt sigma1)).
  change (Spec.crr_discount (with_sigma opt sigma2) N)
    with (Spec.crr_discount (with_sigma opt sigma1) N).
  pose proof crr_u1_gt_1 as H1. pose proof crr_u1_le_u2 as H12.
  assert (H2 : 1 < u2) by lra.
  pose proof (crr_p_mean sigma1 H1) as Hm1.
  pose proof (crr_p_mean sigma2 H2) as Hm2.
  unfold Spec.crr_d. fold u1 u2. fold u1 in Hm1. fold u2 in Hm2.
  replace (1 / u1) with (/ u1) by (field; lra).
  replace (1 / u2) with (/ u2) by (field; lra).
  assert (Hd1 : 0 < / u1 < 1).
  { split; [apply Rinv_0_lt_compat; lra|].
    apply Rmult_lt_reg_r with u1; [lra|]. rewrite Rinv_l; lra. }
  assert (Hd2 : 0 < / u2 <= / u1).
  { split; [apply Rinv_0_lt_compat; lra|apply inv_le_of_ge_1; lra]. }
  set (p1 := Spec.crr_p (with_sigma opt sigma1) N) in *.
  set (p2 := Spec.crr_p (with_sigma opt sigma2) N) in *.
  assert (Hm : / u1 <= m <= u1) by (split; nra).
  assert (Hp2 : 0 <= p2 <= 1) by (split; nra).
  apply (lattice_value_spread _ _ m); try assumption; try lra.
  - apply payoff_convex.
  - left. apply crr_discount_pos.
Qed.

End LatticeVolatility.

(** ** Monotonicity of the analytic price *)

Lemma M_SQRT1_2_pos : 0 < M_SQRT1_2.
Proof.
  unfold M_SQRT1_2. apply Rinv_0_lt_compat, sqrt_lt_R0. lra.
Qed.

Lemma M_SQRT1_2_sqr : M_SQRT1_2 * M_SQRT1_2 = / 2.
Proof.
  unfold M_SQRT1_2. rewrite <- Rinv_mult, sqrt_sqrt by lra. reflexivity.
Qed.

Lemma norm_pdf_pos (x : R) : 0 < norm_pdf x.
Proof.
  unfold norm_pdf. apply Rmult_lt_0_compat; [|apply exp_pos].
  apply Rdiv_lt_0_compat; [apply M_SQRT1_2_pos|].
  pose proof gauss_total_pos. lra.
Qed.

Lemma norm_cdf_bounds (x : R) : 0 <= BlackScholesModel.norm_cdf x <= 1.
Proof.
  unfold BlackScholesModel.norm_cdf.
  pose proof (erfc_bounds (- x * M_SQRT1_2)). lra.
Qed.

Lemma derivable_pt_lim_affine (a b x : R) :
  derivable_pt_lim (fun y => a * y + b) x a.
Proof.
  assert (H : derivable_pt_lim (mult_real_fct a id + fct_cte b)%F x
                (a * 1 + 0)).
  { apply derivable_pt_lim_plus.
    - apply derivable_pt_lim_scal, derivable_pt_lim_id.
    - apply derivable_pt_lim_const. }
  replace (a * 1 + 0) with a in H by ring. exact H.
Qed.

Lemma norm_cdf_derivative (x : R) :
  derivable_pt_lim BlackScholesModel.norm_cdf x (norm_pdf x).
Proof.
  replace (norm_pdf x)
    with (0.5 * - (exp (- ((- M_SQRT1_2 * x + 0) * (- M_SQRT1_2 * x + 0)))
                   / gauss_total)
          * - M_SQRT1_2).
  - apply (derivable_pt_lim_ext
             (comp (mult_real_fct 0.5 erfc)
                   (fun y => - M_SQRT1_2 * y + 0))).
    { intros y. unfold comp, mult_real_fct, BlackScholesModel.norm_cdf.
      do 2 f_equal. ring. }
    apply derivable_pt_lim_comp.
    + apply derivable_pt_lim_affine.
    + apply derivable_pt_lim_scal, erfc_derivative.
  - unfold norm_pdf.
    replace ((- M_SQRT1_2 * x + 0) * (- M_SQRT1_2 * x + 0))
      with (x * x * (M_SQRT1_2 * M_SQRT1_2)) by ring.
    rewrite M_SQRT1_2_sqr. pose proof gauss_total_pos.
    replace 0.5 with (/ 2) by lra. unfold Rdiv. field. lra.
Qed.

Lemma norm_cdf_comp_derivative (f : R -> R) (x l : R) :
  derivable_pt_lim f x l ->
  derivable_pt_lim (fun y => BlackScholesModel.norm_cdf (f y)) x
    (norm_pdf (f x) * l).
Proof.
  intros H.
  exact (derivable_pt_lim_comp f BlackScholesModel.norm_cdf x l _ H
           (norm_cdf_derivative (f x))).
Qed.

Lemma bs_value_derivative (kd : R) (A D B : R -> R) (x lA lD lB : R) :
  derivable_pt_lim A x lA ->
  derivable_pt_lim D x lD ->
  derivable_pt_lim B x lB ->
  derivable_pt_lim (bs_value kd A D B) x
    (lA * BlackScholesModel.norm_cdf (D x)
     + A x * (norm_pdf (D x) * lD)
     - kd * (norm_pdf (D x - B x) * (lD - lB))).
Proof.
  intros HA HD HB.
  apply (derivable_pt_lim_minus
           (fun y => A y * BlackScholesModel.norm_cdf (D y))
           (fun y => kd * BlackScholesModel.norm_cdf (D y - B y))).
  - apply (derivable_pt_lim_mult A
             (fun y => BlackScholesModel.norm_cdf (D y))).
    + exact HA.
    + now apply norm_cdf_comp_derivative.
  - apply (derivable_pt_lim_scal
             (fun y => BlackScholesModel.norm_cdf (D y - B y))).
    apply (norm_cdf_comp_derivative (fun y => D y - B y)).
    now apply (derivable_pt_lim_minus D B).
Qed.

Lemma density_identity (S0 K0 T0 r0 sigma0 : R) :
  0 < S0 -> 0 < K0 -> 0 < T0 -> 0 < sigma0 ->
  S0 * norm_pdf (d1_of S0 K0 T0 r0 sigma0)
  = K0 * exp (- r0 * T0)
    * norm_pdf (d1_of S0 K0 T0 r0 sigma0 - sigma0 * sqrt T0).
Proof.
  intros HS HK HT Hsigma.
  assert (HsT : 0 < sqrt T0) by now apply sqrt_lt_R0.
  assert (Hb : 0 < sigma0 * sqrt T0) by now apply Rmult_lt_0_compat.
  assert (Hbb : sigma0 * sqrt T0 * (sigma0 * sqrt T0) = sigma0 * sigma0 * T0).
  { replace (sigma0 * sqrt T0 * (sigma0 * sqrt T0))
      with (sigma0 * sigma0 * (sqrt T0 * sqrt T0)) by ring.
    rewrite sqrt_sqrt by lra. reflexivity. }
  assert (Hln : ln (S0 / K0) = ln S0 - ln K0).
  { unfold Rdiv. rewrite ln_mult, ln_Rinv by (try apply Rinv_0_lt_compat; lra).
    ring. }
  set (b := sigma0 * sqrt T0) in *.
  set (d := d1_of S0 K0 T0 r0 sigma0).
  assert (Hdb : d * b = ln S0 - ln K0 + (r0 + 0.5 * sigma0 * sigma0) * T0).
  { unfold d, d1_of. fold b. rewrite Hln. field. lra. }
  unfold norm_pdf.
  rewrite <- (exp_ln S0) at 1 by exact HS.
  rewrite <- (exp_ln K0) at 1 by exact HK.
  set (k0 := M_SQRT1_2 / (2 * gauss_total)).
  replace (exp (ln S0) * (k0 * exp (- (d * d / 2))))
    with (k0 * (exp (ln S0) * exp (- (d * d / 2)))) by ring.
  replace (exp (ln K0) * exp (- r0 * T0)
           * (k0 * exp (- ((d - b) * (d - b) / 2))))
    with (k0 * (exp (ln K0) * exp (- r0 * T0)
                * exp (- ((d - b) * (d - b) / 2)))) by ring.
  rewrite <- !exp_plus. do 2 f_equal.
  replace ((d - b) * (d - b)) with (d * d - 2 * (d * b) + b * b) by ring.
  rewrite Hdb, Hbb. lra.
Qed.

Lemma price_put_via_call (S0 K0 T0 r0 sigma0 : R) :
  BlackScholesModel.price (EuropeanOption.mk S0 K0 T0 r0 sigma0 Put)
  = BlackScholesModel.price (EuropeanOption.mk S0 K0 T0 r0 sigma0 Call)
    - S0 + K0 * exp (- r0 * T0).
Proof.
  unfold BlackScholesModel.price.
  cbn [EuropeanOption.type EuropeanOption.S EuropeanOption.K EuropeanOption.T
       EuropeanOption.r EuropeanOption.sigma].
  rewrite !norm_cdf_reflect. ring.
Qed.

Section AnalyticSpot.

Variables K0 T0 r0 sigma0 : R.
Hypothesis HK : 0 < K0.
Hypothesis HT : 0 < T0.
Hypothesis Hsigma : 0 < sigma0.

Lemma price_call_of_spot (s : R) :
  BlackScholesModel.price (EuropeanOption.mk s K0 T0 r0 sigma0 Call)
  = call_of_spot K0 T0 r0 sigma0 s.
Proof. reflexivity. Qed.

Lemma vol_sqrt_pos : 0 < sigma0 * sqrt T0.
Proof. apply Rmult_lt_0_compat; [exact Hsigma|now apply sqrt_lt_R0]. Qed.

Lemma d1_of_spot_derivative (s : R) :
  0 < s ->
  derivable_pt_lim (fun y => d1_of y K0 T0 r0 sigma0) s
    (/ s / (sigma0 * sqrt T0)).
Proof.
  intros Hs. pose proof vol_sqrt_pos as Hb.
  set (b := sigma0 * sqrt T0) in *.
  set (a := (r0 + 0.5 * sigma0 * sigma0) * T0).
  apply (derivable_pt_lim_ext
           (comp (fun z => / b * z + a / b)
                 (comp ln (fun y => / K0 * y + 0)))).
  { intros y. unfold comp, d1_of. fold a b.
    replace (/ K0 * y + 0) with (y / K0) by (unfold Rdiv; ring).
    field. lra. }
  replace (/ s / b) with (/ b * (/ (/ K0 * s + 0) * / K0)) by (field; lra).
  apply derivable_pt_lim_comp.
  - apply derivable_pt_lim_comp.
    + apply derivable_pt_lim_affine.
    + apply derivable_pt_lim_ln.
      rewrite Rplus_0_r. apply Rmult_lt_0_compat; [|exact Hs].
      now apply Rinv_0_lt_compat.
  - apply derivable_pt_lim_affine.
Qed.

(** Mean value form of the delta: between two spot prices the Call
    price moves by Phi(d1) at an intermediate spot times the move. *)
Lemma call_of_spot_slope (S1 S2 : R) :
  0 < S1 -> S1 < S2 ->
  exists c : R,
    S1 < c < S2
    /\ call_of_spot K0 T0 r0 sigma0 S2 - call_of_spot K0 T0 r0 sigma0 S1
       = BlackScholesModel.norm_cdf (d1_of c K0 T0 r0 sigma0) * (S2 - S1).
Proof.
  intros H1 H12.
  set (b := sigma0 * sqrt T0).
  set (kd := K0 * exp (- r0 * T0)).
  destruct (MVT_cor2 (call_of_spot K0 T0 r0 sigma0)
              (fun c =>
                 1 * BlackScholesModel.norm_cdf (d1_of c K0 T0 r0 sigma0)
                 + id c * (norm_pdf (d1_of c K0 T0 r0 sigma0) * (/ c / b))
                 - kd * (norm_pdf (d1_of c K0 T0 r0 sigma0 - fct_cte b c)
                         * (/ c / b - 0)))
              S1 S2 H12) as (c & Hc & Hrange).
  { intros c Hc.
    apply (bs_value_derivative kd id (fun s => d1_of s K0 T0 r0 sigma0)
             (fct_cte b) c 1 (/ c / b) 0).
    - apply derivable_pt_lim_id.
    - apply d1_of_spot_derivative. lra.
    - apply derivable_pt_lim_const. }
  exists c. split; [exact Hrange|]. rewrite Hc. f_equal.
  unfold id, fct_cte, kd, b.
  pose proof (density_identity c K0 T0 r0 sigma0 ltac:(lra) HK HT Hsigma) as E.
  set (phi1 := norm_pdf (d1_of c K0 T0 r0 sigma0)) in *.
  set (phi2 := norm_pdf (d1_of c K0 T0 r0 sigma0 - sigma0 * sqrt T0)) in *.
  replace (K0 * exp (- r0 * T0) * (phi2 * (/ c / (sigma0 * sqrt T0) - 0)))
    with (K0 * exp (- r0 * T0) * phi2 * (/ c / (sigma0 * sqrt T0))) by ring.
  rewrite <- E. ring.
Qed.

End AnalyticSpot.

Section AnalyticVolatility.

Variables S0 K0 T0 r0 : R.
Hypothesis HS : 0 < S0.
Hypothesis HK : 0 < K0.
Hypothesis HT : 0 < T0.

Lemma price_call_of_sigma (v : R) :
  BlackScholesModel.price (EuropeanOption.mk S0 K0 T0 r0 v Call)
  = call_of_sigma S0 K0 T0 r0 v.
Proof. reflexivity. Qed.

Lemma d1_of_sigma_derivative (v : R) :
  0 < v ->
  derivable_pt_lim (fun y => d1_of S0 K0 T0 r0 y) v
    (d1_of_sigma_slope S0 K0 T0 r0 v).
Proof.
  intros Hv.
  assert (HsT : 0 < sqrt T0) by now apply sqrt_lt_R0.
  set (num := plus_fct (mult_real_fct (0.5 * T0) Rsqr)
                (fct_cte (ln (S0 / K0) + r0 * T0))).
  set (den := fun y : R => sqrt T0 * y + 0).
  apply (derivable_pt_lim_ext (div_fct num den)).
  { intros y.
    unfold div_fct, num, den, plus_fct, mult_real_fct, fct_cte, d1_of, Rsqr.
    unfold Rdiv. f_equal; [ring|f_equal; ring]. }
  unfold d1_of_sigma_slope.
  apply (derivable_pt_lim_div num den).
  - apply derivable_pt_lim_plus.
    + apply derivable_pt_lim_scal, derivable_pt_lim_Rsqr.
    + apply derivable_pt_lim_const.
  - apply derivable_pt_lim_affine.
  - unfold den. apply Rgt_not_eq. nra.
Qed.

(** Mean value form of the vega: between two volatilities the Call
    price moves by K e^(-rT) phi(d2) sqrt(T) at an intermediate
    volatility times the move. *)
Lemma call_of_sigma_slope (v1 v2 : R) :
  0 < v1 -> v1 < v2 ->
  exists c : R,
    v1 < c < v2
    /\ call_of_sigma S0 K0 T0 r0 v2 - call_of_sigma S0 K0 T0 r0 v1
       = K0 * exp (- r0 * T0)
         * norm_pdf (d1_of S0 K0 T0 r0 c - c * sqrt T0) * sqrt T0
         * (v2 - v1).
Proof.
  intros H1 H12.
  set (kd := K0 * exp (- r0 * T0)).
  destruct (MVT_cor2 (call_of_sigma S0 K0 T0 r0)
              (fun c =>
                 0 * BlackScholesModel.norm_cdf (d1_of S0 K0 T0 r0 c)
                 + fct_cte S0 c
                   * (norm_pdf (d1_of S0 K0 T0 r0 c)
                      * d1_of_sigma_slope S0 K0 T0 r0 c)
                 - kd * (norm_pdf (d1_of S0 K0 T0 r0 c - c * sqrt T0)
                         * (d1_of_sigma_slope S0 K0 T0 r0 c - sqrt T0)))
              v1 v2 H12) as (c & Hc & Hrange).
  { intros c Hc.
    apply (bs_value_derivative kd (fct_cte S0)
             (fun v => d1_of S0 K0 T0 r0 v) (fun v => v * sqrt T0)
             c 0 (d1_of_sigma_slope S0 K0 T0 r0 c) (sqrt T0)).
    - apply derivable_pt_lim_const.
    - apply d1_of_sigma_derivative. lra.
    - apply (derivable_pt_lim_ext (fun y => sqrt T0 * y + 0)).
      + intros y. ring.
      + apply derivable_pt_lim_affine. }
  exists c. split; [exact Hrange|]. rewrite Hc. f_equal.
  unfold fct_cte, kd.
  pose proof (density_identity S0 K0 T0 r0 c HS HK HT ltac:(lra)) as E.
  set (phi1 := norm_pdf (d1_of S0 K0 T0 r0 c)) in *.
  set (phi2 := norm_pdf (d1_of S0 K0 T0 r0 c - c * sqrt T0)) in *.
  set (l := d1_of_sigma_slope S0 K0 T0 r0 c).
  replace (0 * BlackScholesModel.norm_cdf (d1_of S0 K0 T0 r0 c)
           + S0 * (phi1 * l)
           - K0 * exp (- r0 * T0) * (phi2 * (l - sqrt T0)))
    with ((S0 * phi1 - K0 * exp (- r0 * T0) * phi2) * l
          + K0 * exp (- r0 * T0) * phi2 * sqrt T0) by ring.
  rewrite E. ring.
Qed.

End AnalyticVolatility.

Lemma analytic_spot_monotone (opt : EuropeanOption.t) (S1 S2 : R) :
  0 < EuropeanOption.K opt -> 0 < EuropeanOption.T opt ->
  0 < EuropeanOption.sigma opt ->
  0 < S1 -> S1 <= S2 ->
  spot_order (EuropeanOption.type opt)
    (BlackScholesModel.price (with_S opt S1))
    (BlackScholesModel.price (with_S opt S2)).
Proof.
  intros HK HT Hsigma H1 [H12|<-].
  2:{ destruct (EuropeanOption.type opt); apply Rle_refl. }
  destruct opt as [S0 K0 T0 r0 sigma0 ty]. unfold with_S.
  cbn [EuropeanOption.K EuropeanOption.T EuropeanOption.r
       EuropeanOption.sigma EuropeanOption.type] in *.
  destruct (call_of_spot_slope K0 T0 r0 sigma0 HK HT Hsigma S1 S2 H1 H12)
    as (c & _ & Hc).
  pose proof (norm_cdf_bounds (d1_of c K0 T0 r0 sigma0)) as Hphi.
  set (q := BlackScholesModel.norm_cdf (d1_of c K0 T0 r0 sigma0)) in *.
  destruct ty; cbn [spot_order].
  - rewrite !price_call_of_spot. nra.
  - rewrite !price_put_via_call, !price_call_of_spot. nra.
Qed.

Lemma analytic_sigma_monotone (opt : EuropeanOption.t) (sigma1 sigma2 : R) :
  0 < EuropeanOption.S opt -> 0 < EuropeanOption.K opt ->
  0 < EuropeanOption.T opt ->
  0 < sigma1 -> sigma1 <= sigma2 ->
  BlackScholesModel.price (with_sigma opt sigma1)
  <= BlackScholesModel.price (with_sigma opt sigma2).
Proof.
  intros HS HK HT H1 [H12|<-]; [|apply Rle_refl].
  destruct opt as [S0 K0 T0 r0 sigma0 ty]. unfold with_sigma.
  cbn [EuropeanOption.S EuropeanOption.K EuropeanOption.T EuropeanOption.r
       EuropeanOption.sigma EuropeanOption.type] in *.
  destruct (call_of_sigma_slope S0 K0 T0 r0 HS HK HT sigma1 sigma2 H1 H12)
    as (c & _ & Hc).
  assert (Hslope : 0 <= K0 * exp (- r0 * T0)
                        * norm_pdf (d1_of S0 K0 T0 r0 c - c * sqrt T0)
                        * sqrt T0).
  { pose proof (exp_pos (- r0 * T0)) as He.
    pose proof (norm_pdf_pos (d1_of S0 K0 T0 r0 c - c * sqrt T0)) as Hphi.
    pose proof (sqrt_pos T0) as Hs.
    apply Rmult_le_pos; [|exact Hs].
    apply Rmult_le_pos; [|lra].
    apply Rmult_le_pos; lra. }
  assert (Hcall : call_of_sigma S0 K0 T0 r0 sigma1
                  <= call_of_sigma S0 K0 T0 r0 sigma2) by nra.
  destruct ty.
  - rewrite !price_call_of_sigma. exact Hcall.
  - rewrite !price_put_via_call, !price_call_of_sigma. lra.
Qed.

(** ** Monotonicity of the three pricers *)



(** * Further properties of the code *)

(** ** The payoff *)

Lemma std_max_0_cases (a : R) :
  (a <= 0 /\ std_max a 0 = 0) \/ (0 <= a /\ std_max a 0 = a).
Proof. unfold std_max. destruct (Rlt_dec a 0); [left|right]; lra. Qed.

(** X1. The two payoff kinds on the same strike: both are non-negative,
    at most one of them pays, and Call payoff minus Put payoff is
    ST - K. *)
Theorem payoff_legs (opt : EuropeanOption.t) (ST : R) :
  0 <= EuropeanOption.payoff (with_type opt Call) ST
  /\ 0 <= EuropeanOption.payoff (with_type opt Put) ST
  /\ EuropeanOption.payoff (with_type opt Call) ST
     * EuropeanOption.payoff (with_type opt Put) ST = 0
  /\ EuropeanOption.payoff (with_type opt Call) ST
     - EuropeanOption.payoff (with_type opt Put) ST
     = ST - EuropeanOption.K opt.
Proof.
  unfold EuropeanOption.payoff, with_type.
  cbn [EuropeanOption.type EuropeanOption.K].
  destruct (std_max_0_cases (ST - EuropeanOption.K opt)) as [[H1 E1]|[H1 E1]];
    destruct (std_max_0_cases (EuropeanOption.K opt - ST)) as [[H2 E2]|[H2 E2]];
    rewrite E1, E2; repeat split; try lra; nra.
Qed.

(** X2. The payoff moves by at most the move of the terminal price
    (either kind): it is 1-Lipschitz. *)
Theorem payoff_lipschitz (opt : EuropeanOption.t) (x y : R) :
  Rabs (EuropeanOption.payoff opt x - EuropeanOption.payoff opt y)
  <= Rabs (x - y).
Proof.
  unfold EuropeanOption.payoff.
  destruct (EuropeanOption.type opt).
  - destruct (std_max_0_cases (x - EuropeanOption.K opt)) as [[H1 E1]|[H1 E1]];
      destruct (std_max_0_cases (y - EuropeanOption.K opt))
        as [[H2 E2]|[H2 E2]];
      rewrite E1, E2; unfold Rabs; repeat destruct (Rcase_abs _); lra.
  - destruct (std_max_0_cases (EuropeanOption.K opt - x)) as [[H1 E1]|[H1 E1]];
      destruct (std_max_0_cases (EuropeanOption.K opt - y))
        as [[H2 E2]|[H2 E2]];
      rewrite E1, E2; unfold Rabs; repeat destruct (Rcase_abs _); lra.
Qed.

(** ** The normal distribution function *)

Lemma norm_cdf_increasing (x y : R) :
  x < y -> BlackScholesModel.norm_cdf x < BlackScholesModel.norm_cdf y.
Proof.
  intros Hxy.
  destruct (MVT_cor2 BlackScholesModel.norm_cdf norm_pdf x y Hxy)
    as (c & Hc & _).
  { intros c _. apply norm_cdf_derivative. }
  pose proof (norm_pdf_pos c). nra.
Qed.

Lemma norm_cdf_0 : BlackScholesModel.norm_cdf 0 = 0.5.
Proof.
  unfold BlackScholesModel.norm_cdf, erfc, erf.
  replace (- 0 * M_SQRT1_2) with 0 by ring.
  rewrite gauss_primitive_0. unfold Rdiv. rewrite Rmult_0_l. lra.
Qed.

(** [norm_cdf] comes arbitrarily close to 0. *)
Lemma norm_cdf_small (eps : R) :
  0 < eps -> exists y : R, BlackScholesModel.norm_cdf y < eps.
Proof.
  intros Heps. destruct (erf_sup eps Heps) as [x Hx].
  pose proof M_SQRT1_2_pos as Hc.
  exists (- x / M_SQRT1_2). unfold BlackScholesModel.norm_cdf.
  replace (- (- x / M_SQRT1_2) * M_SQRT1_2) with x by (field; lra).
  unfold erfc. lra.
Qed.

(** X3. [norm_cdf] behaves as a distribution function: its values lie
    in [0,1], it is symmetric about 0 (norm_cdf(-x) = 1 - norm_cdf(x),
    norm_cdf(0) = 0.5), strictly increasing, and it comes arbitrarily
    close to 0 and to 1. *)
Theorem norm_cdf_distribution :
  (forall x : R, 0 <= BlackScholesModel.norm_cdf x <= 1)
  /\ (forall x : R,
        BlackScholesModel.norm_cdf (- x) = 1 - BlackScholesModel.norm_cdf x)
  /\ BlackScholesModel.norm_cdf 0 = 0.5
  /\ (forall x y : R,
        x < y -> BlackScholesModel.norm_cdf x < BlackScholesModel.norm_cdf y)
  /\ (forall eps : R, 0 < eps ->
        exists x y : R,
          BlackScholesModel.norm_cdf x < eps
          /\ 1 - eps < BlackScholesModel.norm_cdf y).
Proof.
  split; [exact norm_cdf_bounds|].
  split; [exact norm_cdf_reflect|].
  split; [exact norm_cdf_0|].
  split; [exact norm_cdf_increasing|].
  intros eps Heps. destruct (norm_cdf_small eps Heps) as [x Hx].
  exists x, (- x). split; [exact Hx|]. rewrite norm_cdf_reflect. lra.
Qed.

(** ** Bounds and symmetries of the analytic price *)

Lemma norm_cdf_nondecreasing (x y : R) :
  x <= y -> BlackScholesModel.norm_cdf x <= BlackScholesModel.norm_cdf y.
Proof.
  intros [H | ->]; [left; now apply norm_cdf_increasing|apply Rle_refl].
Qed.

Lemma price_call_unfold (S0 K0 T0 r0 sigma0 : R) :
  BlackScholesModel.price (EuropeanOption.mk S0 K0 T0 r0 sigma0 Call)
  = S0 * BlackScholesModel.norm_cdf (d1_of S0 K0 T0 r0 sigma0)
    - K0 * exp (- r0 * T0)
      * BlackScholesModel.norm_cdf
          (d1_of S0 K0 T0 r0 sigma0 - sigma0 * sqrt T0).
Proof. reflexivity. Qed.

Lemma d1_of_spot_nondecreasing (K0 T0 r0 sigma0 s1 s2 : R) :
  0 < K0 -> 0 < T0 -> 0 < sigma0 -> 0 < s1 -> s1 <= s2 ->
  d1_of s1 K0 T0 r0 sigma0 <= d1_of s2 K0 T0 r0 sigma0.
Proof.
  intros HK HT Hsigma H1 H12.
  pose proof (vol_sqrt_pos T0 sigma0 HT Hsigma) as Hb.
  assert (Hln : ln (s1 / K0) <= ln (s2 / K0)).
  { destruct H12 as [H12 | ->]; [|apply Rle_refl].
    left. apply ln_increasing.
    - apply Rdiv_lt_0_compat; lra.
    - apply Rmult_lt_compat_r; [apply Rinv_0_lt_compat|]; lra. }
  unfold d1_of. apply Rmult_le_compat_r; [|lra].
  left. now apply Rinv_0_lt_compat.
Qed.

(** The spot price at which d2 equals a given level. *)
Lemma d1_of_hits (K0 T0 r0 sigma0 y : R) :
  0 < K0 -> 0 < T0 -> 0 < sigma0 ->
  let b := sigma0 * sqrt T0 in
  let s := K0 * exp ((y + b) * b - (r0 + 0.5 * sigma0 * sigma0) * T0) in
  0 < s /\ d1_of s K0 T0 r0 sigma0 - b = y.
Proof.
  intros HK HT Hsigma b s.
  pose proof (vol_sqrt_pos T0 sigma0 HT Hsigma) as Hb. fold b in Hb.
  split.
  - unfold s. apply Rmult_lt_0_compat; [exact HK|apply exp_pos].
  - unfold d1_of. fold b. unfold s.
    replace (K0 * exp ((y + b) * b - (r0 + 0.5 * sigma0 * sigma0) * T0) / K0)
      with (exp ((y + b) * b - (r0 + 0.5 * sigma0 * sigma0) * T0))
      by (field; lra).
    rewrite ln_exp. field. lra.
Qed.

Lemma analytic_call_nonneg (S0 K0 T0 r0 sigma0 : R) :
  0 < S0 -> 0 < K0 -> 0 < T0 -> 0 < sigma0 ->
  0 <= BlackScholesModel.price (EuropeanOption.mk S0 K0 T0 r0 sigma0 Call).
Proof.
  intros HS HK HT Hsigma. apply le_epsilon. intros eps Heps.
  set (kd := K0 * exp (- r0 * T0)).
  assert (Hkd : 0 < kd) by (apply Rmult_lt_0_compat; [lra|apply exp_pos]).
  destruct (norm_cdf_small (eps / kd)) as [y Hy].
  { now apply Rdiv_lt_0_compat. }
  destruct (d1_of_hits K0 T0 r0 sigma0 y HK HT Hsigma) as [Hs0 Hd2].
  cbv zeta in Hs0, Hd2.
  set (s0 := K0 * exp ((y + sigma0 * sqrt T0) * (sigma0 * sqrt T0)
                       - (r0 + 0.5 * sigma0 * sigma0) * T0)) in *.
  set (s := Rmin S0 s0).
  assert (Hs : 0 < s) by (unfold s; apply Rmin_glb_lt; assumption).
  assert (HsS : s <= S0) by apply Rmin_l.
  assert (Hss0 : s <= s0) by apply Rmin_r.
  pose proof (analytic_spot_monotone
                (EuropeanOption.mk S0 K0 T0 r0 sigma0 Call) s S0
                HK HT Hsigma Hs HsS) as Hmono.
  cbn [spot_order EuropeanOption.type] in Hmono.
  unfold with_S in Hmono.
  cbn [EuropeanOption.K EuropeanOption.T EuropeanOption.r
       EuropeanOption.sigma EuropeanOption.type] in Hmono.
  rewrite (price_call_unfold s) in Hmono.
  pose proof (norm_cdf_bounds (d1_of s K0 T0 r0 sigma0)) as Hphi1.
  pose proof (d1_of_spot_nondecreasing K0 T0 r0 sigma0 s s0
                HK HT Hsigma Hs Hss0) as Hd.
  pose proof (norm_cdf_nondecreasing
                (d1_of s K0 T0 r0 sigma0 - sigma0 * sqrt T0) y
                ltac:(lra)) as Hphi2.
  fold kd in Hmono.
  assert (Hy' : kd * BlackScholesModel.norm_cdf y < eps).
  { apply Rmult_lt_reg_r with (/ kd); [now apply Rinv_0_lt_compat|].
    replace (kd * BlackScholesModel.norm_cdf y * / kd)
      with (BlackScholesModel.norm_cdf y) by (field; lra).
    exact Hy. }
  set (q1 := BlackScholesModel.norm_cdf (d1_of s K0 T0 r0 sigma0)) in *.
  set (q2 := BlackScholesModel.norm_cdf
               (d1_of s K0 T0 r0 sigma0 - sigma0 * sqrt T0)) in *.
  assert (0 <= s * q1) by (apply Rmult_le_pos; lra).
  assert (kd * q2 <= kd * BlackScholesModel.norm_cdf y)
    by (apply Rmult_le_compat_l; lra).
  lra.
Qed.

Lemma ln_quotient (x y : R) : 0 < x -> 0 < y -> ln (x / y) = ln x - ln y.
Proof.
  intros Hx Hy. unfold Rdiv.
  rewrite ln_mult, ln_Rinv by (try apply Rinv_0_lt_compat; lra). ring.
Qed.

Lemma put_as_dual_call (S0 K0 T0 r0 sigma0 : R) :
  0 < S0 -> 0 < K0 -> 0 < T0 -> 0 < sigma0 ->
  BlackScholesModel.price (EuropeanOption.mk S0 K0 T0 r0 sigma0 Put)
  = BlackScholesModel.price
      (EuropeanOption.mk (K0 * exp (- r0 * T0)) S0 T0 0 sigma0 Call).
Proof.
  intros HS HK HT Hsigma.
  pose proof (vol_sqrt_pos T0 sigma0 HT Hsigma) as Hb.
  assert (Hbb : sigma0 * sqrt T0 * (sigma0 * sqrt T0) = sigma0 * sigma0 * T0).
  { replace (sigma0 * sqrt T0 * (sigma0 * sqrt T0))
      with (sigma0 * sigma0 * (sqrt T0 * sqrt T0)) by ring.
    rewrite sqrt_sqrt by lra. reflexivity. }
  assert (Hd : d1_of (K0 * exp (- r0 * T0)) S0 T0 0 sigma0
               = sigma0 * sqrt T0 - d1_of S0 K0 T0 r0 sigma0).
  { unfold d1_of. set (b := sigma0 * sqrt T0) in *.
    rewrite !ln_quotient
      by (try apply Rmult_lt_0_compat; try apply exp_pos; lra).
    rewrite ln_mult, ln_exp by (try apply exp_pos; lra).
    apply Rmult_eq_reg_r with b; [|lra].
    replace ((b - (ln S0 - ln K0 + (r0 + 0.5 * sigma0 * sigma0) * T0) / b) * b)
      with (b * b - (ln S0 - ln K0 + (r0 + 0.5 * sigma0 * sigma0) * T0))
      by (field; lra).
    rewrite Hbb. unfold Rdiv. rewrite Rmult_assoc, Rinv_l by lra. lra. }
  rewrite price_call_unfold, Hd.
  unfold BlackScholesModel.price.
  cbn [EuropeanOption.type EuropeanOption.S EuropeanOption.K EuropeanOption.T
       EuropeanOption.r EuropeanOption.sigma].
  fold (d1_of S0 K0 T0 r0 sigma0).
  replace (- 0 * T0) with 0 by ring. rewrite exp_0.
  replace (sigma0 * sqrt T0 - d1_of S0 K0 T0 r0 sigma0)
    with (- (d1_of S0 K0 T0 r0 sigma0 - sigma0 * sqrt T0)) by ring.
  replace (- (d1_of S0 K0 T0 r0 sigma0 - sigma0 * sqrt T0) - sigma0 * sqrt T0)
    with (- d1_of S0 K0 T0 r0 sigma0) by ring.
  ring.
Qed.

Lemma analytic_put_nonneg (S0 K0 T0 r0 sigma0 : R) :
  0 < S0 -> 0 < K0 -> 0 < T0 -> 0 < sigma0 ->
  0 <= BlackScholesModel.price (EuropeanOption.mk S0 K0 T0 r0 sigma0 Put).
Proof.
  intros HS HK HT Hsigma. rewrite put_as_dual_call by assumption.
  apply analytic_call_nonneg; try assumption.
  apply Rmult_lt_0_compat; [exact HK|apply exp_pos].
Qed.





Lemma analytic_price_scaled (opt : EuropeanOption.t) (lambda : R) :
  0 < lambda -> EuropeanOption.K opt <> 0 ->
  BlackScholesModel.price (scale_contract opt lambda)
  = lambda * BlackScholesModel.price opt.
Proof.
  intros Hl HK. unfold BlackScholesModel.price, scale_contract.
  cbn [EuropeanOption.type EuropeanOption.S EuropeanOption.K EuropeanOption.T
       EuropeanOption.r EuropeanOption.sigma].
  replace (lambda * EuropeanOption.S opt / (lambda * EuropeanOption.K opt))
    with (EuropeanOption.S opt / EuropeanOption.K opt) by (field; lra).
  destruct (EuropeanOption.type opt); ring.
Qed.

(** ** The lattice as a linear, monotone operator *)

Lemma lattice_value_minus (f g : R -> R) (discount p u d : R) (k : nat) :
  forall s : R,
    lattice_value (fun x => f x - g x) discount p u d k s
    = lattice_value f discount p u d k s - lattice_value g discount p u d k s.
Proof.
  induction k as [|k IH]; intros s; cbn [lattice_value]; [reflexivity|].
  rewrite !IH. ring.
Qed.

Lemma lattice_value_ext (f g : R -> R) (discount p u d : R) (k : nat) :
  (forall x : R, f x = g x) ->
  forall s : R,
    lattice_value f discount p u d k s = lattice_value g discount p u d k s.
Proof.
  intros Hfg. induction k as [|k IH]; intros s; cbn [lattice_value].
  - apply Hfg.
  - now rewrite !IH.
Qed.

Lemma lattice_value_affine (a b discount p u d : R) (k : nat) :
  forall s : R,
    lattice_value (fun x => a * x + b) discount p u d k s
    = a * s * (discount * (p * u + (1 - p) * d)) ^ k + b * discount ^ k.
Proof.
  induction k as [|k IH]; intros s; cbn [lattice_value pow]; [ring|].
  rewrite !IH. ring.
Qed.

Lemma lattice_value_le (f g : R -> R) (discount p u d : R) (k : nat) :
  0 <= discount -> 0 <= p <= 1 -> 0 <= u -> 0 <= d ->
  (forall x : R, 0 <= x -> f x <= g x) ->
  forall s : R, 0 <= s ->
    lattice_value f discount p u d k s <= lattice_value g discount p u d k s.
Proof.
  intros Hdisc Hp Hu Hd Hfg. induction k as [|k IH]; intros s Hs;
    cbn [lattice_value].
  - now apply Hfg.
  - pose proof (IH (s * u) (Rmult_le_pos _ _ Hs Hu)) as Ha.
    pose proof (IH (s * d) (Rmult_le_pos _ _ Hs Hd)) as Hb.
    apply Rmult_le_compat_l; [exact Hdisc|].
    apply Rplus_le_compat; apply Rmult_le_compat_l; lra.
Qed.

Lemma exp_pow_INR (x : R) (n : nat) : exp x ^ n = exp (INR n * x).
Proof.
  induction n as [|n IH].
  - cbn [pow INR]. now rewrite Rmult_0_l, exp_0.
  - rewrite S_INR. cbn [pow]. rewrite IH, <- exp_plus. f_equal. ring.
Qed.

(** ** The lattice parameters of a contract with T, sigma > 0 *)

Section LatticeParameters.

Variables (opt : EuropeanOption.t) (N : nat).
Hypothesis HT : 0 < EuropeanOption.T opt.
Hypothesis Hsigma : 0 < EuropeanOption.sigma opt.
Hypothesis HN : (0 < N)%nat.

Lemma crr_dt_positive : 0 < Spec.crr_dt opt N.
Proof.
  unfold Spec.crr_dt. apply Rdiv_lt_0_compat; [exact HT|].
  now apply lt_0_INR.
Qed.

Lemma crr_u_gt_1 : 1 < Spec.crr_u opt N.
Proof.
  unfold Spec.crr_u. rewrite <- exp_0. apply exp_increasing.
  apply Rmult_lt_0_compat; [exact Hsigma|].
  apply sqrt_lt_R0, crr_dt_positive.
Qed.

Lemma crr_d_lt_1 : 0 < Spec.crr_d opt N < 1.
Proof.
  pose proof crr_u_gt_1 as Hu. split; [apply crr_d_pos|].
  unfold Spec.crr_d. apply Rmult_lt_reg_r with (Spec.crr_u opt N); [lra|].
  unfold Rdiv. rewrite Rmult_assoc, Rinv_l; lra.
Qed.

(** The risk-neutral mean of one step is the growth factor e^(r dt) ... *)
Lemma crr_mean :
  Spec.crr_p opt N * Spec.crr_u opt N
  + (1 - Spec.crr_p opt N) * Spec.crr_d opt N
  = exp (EuropeanOption.r opt * Spec.crr_dt opt N).
Proof.
  pose proof crr_u_gt_1 as Hu. pose proof crr_d_lt_1 as Hd.
  unfold Spec.crr_p.
  set (u := Spec.crr_u opt N) in *. set (d := Spec.crr_d opt N) in *.
  field. lra.
Qed.

(** ... which the one-step discount factor undoes. *)
Lemma crr_discount_mean :
  Spec.crr_discount opt N
  * (Spec.crr_p opt N * Spec.crr_u opt N
     + (1 - Spec.crr_p opt N) * Spec.crr_d opt N) = 1.
Proof.
  rewrite crr_mean. unfold Spec.crr_discount.
  rewrite <- exp_plus, <- exp_0. f_equal. ring.
Qed.

(** [N] one-step discounts make the discount over the whole life. *)
Lemma crr_discount_pow :
  Spec.crr_discount opt N ^ N
  = exp (- EuropeanOption.r opt * EuropeanOption.T opt).
Proof.
  unfold Spec.crr_discount, Spec.crr_dt. rewrite exp_pow_INR. f_equal.
  assert (HN' : 0 < INR N) by now apply lt_0_INR.
  field. lra.
Qed.

(** The probability lies in [0,1] when |r| sqrt(dt) <= sigma. *)
Lemma crr_p_in_range :
  Rabs (EuropeanOption.r opt) * sqrt (Spec.crr_dt opt N)
  <= EuropeanOption.sigma opt ->
  0 <= Spec.crr_p opt N <= 1.
Proof.
  intros Hr. pose proof crr_u_gt_1 as Hu. pose proof crr_d_lt_1 as Hd.
  pose proof crr_dt_positive as Hdt.
  pose proof (sqrt_lt_R0 _ Hdt) as Hs.
  pose proof (sqrt_sqrt _ (Rlt_le _ _ Hdt)) as Hss.
  set (dt := Spec.crr_dt opt N) in *.
  assert (Hup : exp (EuropeanOption.r opt * dt) <= Spec.crr_u opt N).
  { unfold Spec.crr_u. fold dt.
    assert (EuropeanOption.r opt * dt
            <= EuropeanOption.sigma opt * sqrt dt).
    { pose proof (Rle_abs (EuropeanOption.r opt)) as Ha.
      assert (E : EuropeanOption.r opt * dt
                  = EuropeanOption.r opt * sqrt dt * sqrt dt)
        by (rewrite Rmult_assoc, Hss; reflexivity).
      rewrite E. apply Rmult_le_compat_r; [lra|].
      apply Rle_trans with (Rabs (EuropeanOption.r opt) * sqrt dt);
        [apply Rmult_le_compat_r; lra|exact Hr]. }
    destruct H as [H|H]; [left; now apply exp_increasing|right; now rewrite H]. }
  assert (Hlo : Spec.crr_d opt N <= exp (EuropeanOption.r opt * dt)).
  { unfold Spec.crr_d, Spec.crr_u. fold dt.
    replace (1 / exp (EuropeanOption.sigma opt * sqrt dt))
      with (exp (- (EuropeanOption.sigma opt * sqrt dt)))
      by (rewrite exp_Ropp; unfold Rdiv; ring).
    assert (- (EuropeanOption.sigma opt * sqrt dt)
            <= EuropeanOption.r opt * dt).
    { pose proof (Rle_abs (- EuropeanOption.r opt)) as Ha.
      rewrite Rabs_Ropp in Ha.
      assert (E : EuropeanOption.r opt * dt
                  = EuropeanOption.r opt * sqrt dt * sqrt dt)
        by (rewrite Rmult_assoc, Hss; reflexivity).
      assert (- EuropeanOption.r opt * sqrt dt * sqrt dt
              <= EuropeanOption.sigma opt * sqrt dt); [|lra].
      apply Rmult_le_compat_r; [lra|].
      apply Rle_trans with (Rabs (EuropeanOption.r opt) * sqrt dt);
        [apply Rmult_le_compat_r; lra|exact Hr]. }
    destruct H as [H|H]; [left; now apply exp_increasing|right; now rewrite H]. }
  unfold Spec.crr_p. fold dt.
  set (u := Spec.crr_u opt N) in *. set (d := Spec.crr_d opt N) in *.
  set (g := exp (EuropeanOption.r opt * dt)) in *.
  split.
  - apply Rmult_le_pos; [lra|]. left. apply Rinv_0_lt_compat. lra.
  - apply Rmult_le_reg_r with (u - d); [lra|].
    unfold Rdiv. rewrite Rmult_assoc, Rinv_l by lra. lra.
Qed.

End LatticeParameters.

(** ** Parity and bounds of the lattice price *)

Lemma payoff_call_minus_put (opt : EuropeanOption.t) (ST : R) :
  EuropeanOption.payoff (with_type opt Call) ST
  - EuropeanOption.payoff (with_type opt Put) ST
  = 1 * ST + - EuropeanOption.K opt.
Proof.
  unfold EuropeanOption.payoff, with_type.
  cbn [EuropeanOption.type EuropeanOption.K].
  destruct (std_max_0_cases (ST - EuropeanOption.K opt)) as [[H1 E1]|[H1 E1]];
    destruct (std_max_0_cases (EuropeanOption.K opt - ST)) as [[H2 E2]|[H2 E2]];
    rewrite E1, E2; lra.
Qed.

Lemma payoff_put_le_strike (opt : EuropeanOption.t) (ST : R) :
  0 <= EuropeanOption.K opt -> 0 <= ST ->
  EuropeanOption.payoff (with_type opt Put) ST
  <= 0 * ST + EuropeanOption.K opt.
Proof.
  intros HK HST. unfold EuropeanOption.payoff, with_type.
  cbn [EuropeanOption.type EuropeanOption.K].
  destruct (std_max_0_cases (EuropeanOption.K opt - ST)) as [[H E]|[H E]];
    rewrite E; lra.
Qed.

Section LatticeParity.

Variables (opt : EuropeanOption.t) (N : nat).
Hypothesis HT : 0 < EuropeanOption.T opt.
Hypothesis Hsigma : 0 < EuropeanOption.sigma opt.
Hypothesis HN : (0 < N)%nat.

Lemma crr_price_parity :
  Spec.crr_price (with_type opt Call) N - Spec.crr_price (with_type opt Put) N
  = EuropeanOption.S opt
    - EuropeanOption.K opt
      * exp (- EuropeanOption.r opt * EuropeanOption.T opt).
Proof.
  rewrite !crr_price_lattice_value.
  change (Spec.crr_discount (with_type opt Call) N)
    with (Spec.crr_discount opt N).
  change (Spec.crr_discount (with_type opt Put) N)
    with (Spec.crr_discount opt N).
  change (Spec.crr_p (with_type opt Call) N) with (Spec.crr_p opt N).
  change (Spec.crr_p (with_type opt Put) N) with (Spec.crr_p opt N).
  change (Spec.crr_u (with_type opt Call) N) with (Spec.crr_u opt N).
  change (Spec.crr_u (with_type opt Put) N) with (Spec.crr_u opt N).
  change (Spec.crr_d (with_type opt Call) N) with (Spec.crr_d opt N).
  change (Spec.crr_d (with_type opt Put) N) with (Spec.crr_d opt N).
  change (EuropeanOption.S (with_type opt Call)) with (EuropeanOption.S opt).
  change (EuropeanOption.S (with_type opt Put)) with (EuropeanOption.S opt).
  rewrite <- lattice_value_minus.
  rewrite (lattice_value_ext _
             (fun x => 1 * x + - EuropeanOption.K opt))
    by apply payoff_call_minus_put.
  rewrite lattice_value_affine.
  rewrite (crr_discount_mean opt N HT Hsigma HN), pow1.
  rewrite (crr_discount_pow opt N HN). ring.
Qed.

Lemma crr_price_put_le :
  0 <= EuropeanOption.S opt -> 0 <= EuropeanOption.K opt ->
  0 <= Spec.crr_p opt N <= 1 ->
  Spec.crr_price (with_type opt Put) N
  <= EuropeanOption.K opt
     * exp (- EuropeanOption.r opt * EuropeanOption.T opt).
Proof.
  intros HS HK Hp. rewrite crr_price_lattice_value.
  change (Spec.crr_discount (with_type opt Put) N)
    with (Spec.crr_discount opt N).
  change (Spec.crr_p (with_type opt Put) N) with (Spec.crr_p opt N).
  change (Spec.crr_u (with_type opt Put) N) with (Spec.crr_u opt N).
  change (Spec.crr_d (with_type opt Put) N) with (Spec.crr_d opt N).
  change (EuropeanOption.S (with_type opt Put)) with (EuropeanOption.S opt).
  eapply Rle_trans.
  - apply (lattice_value_le _ (fun x => 0 * x + EuropeanOption.K opt));
      try assumption.
    + left. apply crr_discount_pos.
    + left. apply crr_u_pos.
    + left. apply crr_d_pos.
    + intros x Hx. now apply payoff_put_le_strike.
  - rewrite lattice_value_affine, (crr_discount_pow opt N HN). lra.
Qed.

End LatticeParity.

Lemma lattice_steps_nat (n : Z) :
  (0 < n)%Z -> (0 < Z.to_nat n)%nat /\ INR (Z.to_nat n) = IZR n.
Proof. intros H. split; [lia|apply INR_to_nat; lia]. Qed.





(** ** Terminal nodes all on one side of the strike *)

Section LatticeReach.

Variables (opt : EuropeanOption.t) (N : nat).
Hypothesis HS : 0 <= EuropeanOption.S opt.
Hypothesis HT : 0 < EuropeanOption.T opt.
Hypothesis Hsigma : 0 < EuropeanOption.sigma opt.
Hypothesis HN : (0 < N)%nat.

Lemma crr_node_price_le_top (i : nat) :
  EuropeanOption.S opt * Spec.crr_u opt N ^ (N - i) * Spec.crr_d opt N ^ i
  <= EuropeanOption.S opt * Spec.crr_u opt N ^ N.
Proof.
  pose proof (crr_u_gt_1 opt N HT Hsigma HN) as Hu.
  pose proof (crr_d_lt_1 opt N HT Hsigma HN) as Hd.
  assert (H1 : Spec.crr_u opt N ^ (N - i) <= Spec.crr_u opt N ^ N)
    by (apply Rle_pow; [lra|lia]).
  assert (H2 : 0 < Spec.crr_u opt N ^ (N - i)) by (apply pow_lt; lra).
  assert (H3 : 0 < Spec.crr_d opt N ^ i) by (apply pow_lt; lra).
  assert (H4 : Spec.crr_d opt N ^ i <= 1).
  { rewrite <- (pow1 i). apply pow_incr. lra. }
  rewrite Rmult_assoc. apply Rmult_le_compat_l; [exact HS|].
  apply Rle_trans with (Spec.crr_u opt N ^ (N - i) * 1); [|lra].
  apply Rmult_le_compat_l; lra.
Qed.

Lemma crr_node_price_ge_bottom (i : nat) :
  (i <= N)%nat ->
  EuropeanOption.S opt * Spec.crr_d opt N ^ N
  <= EuropeanOption.S opt * Spec.crr_u opt N ^ (N - i) * Spec.crr_d opt N ^ i.
Proof.
  intros Hi.
  pose proof (crr_u_gt_1 opt N HT Hsigma HN) as Hu.
  pose proof (crr_d_lt_1 opt N HT Hsigma HN) as Hd.
  assert (H1 : 1 <= Spec.crr_u opt N ^ (N - i))
    by (apply pow_R1_Rle; lra).
  assert (H3 : 0 < Spec.crr_d opt N ^ i) by (apply pow_lt; lra).
  assert (H4 : Spec.crr_d opt N ^ (N - i) <= 1).
  { rewrite <- (pow1 (N - i)). apply pow_incr. lra. }
  assert (H5 : Spec.crr_d opt N ^ N
               = Spec.crr_d opt N ^ i * Spec.crr_d opt N ^ (N - i)).
  { rewrite <- pow_add. f_equal. lia. }
  rewrite Rmult_assoc. apply Rmult_le_compat_l; [exact HS|].
  rewrite H5.
  apply Rle_trans with (1 * Spec.crr_d opt N ^ i).
  - rewrite Rmult_1_l.
    apply Rle_trans with (Spec.crr_d opt N ^ i * 1); [|lra].
    apply Rmult_le_compat_l; lra.
  - apply Rmult_le_compat_r; lra.
Qed.

Lemma crr_call_out_of_reach :
  EuropeanOption.S opt * Spec.crr_u opt N ^ N <= EuropeanOption.K opt ->
  forall k i : nat, Spec.crr_node (with_type opt Call) N k i = 0.
Proof.
  intros Htop. induction k as [|k IH]; intros i.
  - cbn [Spec.crr_node]. unfold EuropeanOption.payoff.
    cbn [with_type EuropeanOption.type EuropeanOption.K EuropeanOption.S].
    change (Spec.crr_u (with_type opt Call) N) with (Spec.crr_u opt N).
    change (Spec.crr_d (with_type opt Call) N) with (Spec.crr_d opt N).
    pose proof (crr_node_price_le_top i) as Hle.
    destruct (std_max_0_cases
                (EuropeanOption.S opt * Spec.crr_u opt N ^ (N - i)
                 * Spec.crr_d opt N ^ i - EuropeanOption.K opt))
      as [[_ E]|[H E]]; rewrite E; lra.
  - cbn [Spec.crr_node]. rewrite !IH. ring.
Qed.

Lemma crr_put_out_of_reach :
  EuropeanOption.K opt <= EuropeanOption.S opt * Spec.crr_d opt N ^ N ->
  forall k i : nat, (i + k <= N)%nat ->
    Spec.crr_node (with_type opt Put) N k i = 0.
Proof.
  intros Hbot. induction k as [|k IH]; intros i Hi.
  - cbn [Spec.crr_node]. unfold EuropeanOption.payoff.
    cbn [with_type EuropeanOption.type EuropeanOption.K EuropeanOption.S].
    change (Spec.crr_u (with_type opt Put) N) with (Spec.crr_u opt N).
    change (Spec.crr_d (with_type opt Put) N) with (Spec.crr_d opt N).
    assert (Hi' : (i <= N)%nat) by lia.
    pose proof (crr_node_price_ge_bottom i Hi') as Hle.
    destruct (std_max_0_cases
                (EuropeanOption.K opt
                 - EuropeanOption.S opt * Spec.crr_u opt N ^ (N - i)
                   * Spec.crr_d opt N ^ i))
      as [[_ E]|[H E]]; rewrite E; lra.
  - cbn [Spec.crr_node]. rewrite !IH by lia. ring.
Qed.

End LatticeReach.



(** X9. A step count N <= 0 is not rejected by the lattice pricer:
    N = 0 returns the payoff at the spot price, N = -1 reads element 0
    of an empty vector (undefined behaviour), and N < -1 raises
    std::length_error from the vector constructor. *)
Theorem lattice_degenerate_steps
    (m : BinomialModel.t) (opt : EuropeanOption.t) :
  is_int (BinomialModel.N m) -> (BinomialModel.N m <= 0)%Z ->
  BinomialModel.price m opt
  = if (BinomialModel.N m =? 0)%Z
    then Returned (EuropeanOption.payoff opt (EuropeanOption.S opt))
    else if (BinomialModel.N m =? -1)%Z then Undefined
         else Thrown std_length_error.
Proof.
  intros [Hlo _] Hle. destruct m as [n]. cbn [BinomialModel.N] in *.
  destruct (Z.eqb_spec n 0) as [->|H0]; [apply lattice_price_0|].
  destruct (Z.eqb_spec n (-1)) as [->|H1]; [apply lattice_price_minus_1|].
  apply lattice_price_negative. cbn [BinomialModel.N]. lia.
Qed.

Lemma lattice_degenerate_steps_witness :
  BinomialModel.price (BinomialModel.mk (-5)) (sample_contract Call)
  = Thrown std_length_error.
Proof.
  apply (lattice_degenerate_steps (BinomialModel.mk (-5))
           (sample_contract Call)).
  - unfold is_int, INT_MIN, INT_MAX; simpl; lia.
  - simpl; lia.
Defined.

(** ** Change of currency unit *)

Lemma std_max_0_scaled (lambda a : R) :
  0 <= lambda -> std_max (lambda * a) 0 = lambda * std_max a 0.
Proof.
  intros Hl.
  destruct (std_max_0_cases a) as [[H E]|[H E]];
    destruct (std_max_0_cases (lambda * a)) as [[H' E']|[H' E']];
    rewrite E, E'; nra.
Qed.

Lemma payoff_scaled (opt : EuropeanOption.t) (lambda x : R) :
  0 <= lambda ->
  EuropeanOption.payoff (scale_contract opt lambda) (lambda * x)
  = lambda * EuropeanOption.payoff opt x.
Proof.
  intros Hl. unfold EuropeanOption.payoff, scale_contract.
  cbn [EuropeanOption.type EuropeanOption.K].
  destruct (EuropeanOption.type opt);
    rewrite <- std_max_0_scaled by exact Hl; f_equal; ring.
Qed.

Lemma crr_node_scaled (opt : EuropeanOption.t) (lambda : R) (N k : nat) :
  0 <= lambda ->
  forall i : nat,
    Spec.crr_node (scale_contract opt lambda) N k i
    = lambda * Spec.crr_node opt N k i.
Proof.
  intros Hl. induction k as [|k IH]; intros i.
  - cbn [Spec.crr_node].
    change (Spec.crr_u (scale_contract opt lambda) N) with (Spec.crr_u opt N).
    change (Spec.crr_d (scale_contract opt lambda) N) with (Spec.crr_d opt N).
    change (EuropeanOption.S (scale_contract opt lambda))
      with (lambda * EuropeanOption.S opt).
    rewrite <- payoff_scaled by exact Hl. f_equal. ring.
  - cbn [Spec.crr_node]. rewrite !IH.
    change (Spec.crr_discount (scale_contract opt lambda) N)
      with (Spec.crr_discount opt N).
    change (Spec.crr_p (scale_contract opt lambda) N) with (Spec.crr_p opt N).
    ring.
Qed.

Lemma payoff_sum_scaled (opt : EuropeanOption.t) (lambda : R) (zs : list R) :
  0 <= lambda ->
  Spec.sum_list
    (map (fun z => EuropeanOption.payoff (scale_contract opt lambda)
                     (Spec.terminal_price (scale_contract opt lambda) z)) zs)
  = lambda
    * Spec.sum_list
        (map (fun z => EuropeanOption.payoff opt (Spec.terminal_price opt z))
             zs).
Proof.
  intros Hl. induction zs as [|z zs IH].
  - unfold Spec.sum_list. cbn [map fold_right]. ring.
  - cbn [map]. unfold Spec.sum_list in *. cbn [fold_right]. rewrite IH.
    replace (Spec.terminal_price (scale_contract opt lambda) z)
      with (lambda * Spec.terminal_price opt z)
      by (unfold Spec.terminal_price, scale_contract;
          cbn [EuropeanOption.S EuropeanOption.T EuropeanOption.r
               EuropeanOption.sigma]; ring).
    rewrite payoff_scaled by exact Hl. ring.
Qed.



(** ** The simulation price on given draws *)

Lemma sum_list_map_minus (f g : R -> R) (l : list R) :
  Spec.sum_list (map f l) - Spec.sum_list (map g l)
  = Spec.sum_list (map (fun z => f z - g z) l).
Proof.
  unfold Spec.sum_list. induction l as [|z l IH]; cbn [map fold_right].
  - ring.
  - rewrite <- IH. ring.
Qed.

Lemma sum_list_map_shift (h : R -> R) (c : R) (l : list R) :
  Spec.sum_list (map (fun z => h z + c) l)
  = Spec.sum_list (map h l) + INR (length l) * c.
Proof.
  unfold Spec.sum_list. induction l as [|z l IH].
  - cbn [map fold_right length INR]. ring.
  - cbn [map fold_right length]. rewrite IH, S_INR. ring.
Qed.

Lemma sum_list_map_le (f g : R -> R) (l : list R) :
  (forall z : R, f z <= g z) ->
  Spec.sum_list (map f l) <= Spec.sum_list (map g l).
Proof.
  intros Hfg. unfold Spec.sum_list.
  induction l as [|z l IH]; cbn [map fold_right]; [lra|].
  pose proof (Hfg z). lra.
Qed.

Lemma sum_list_map_ext (f g : R -> R) (l : list R) :
  (forall z : R, f z = g z) ->
  Spec.sum_list (map f l) = Spec.sum_list (map g l).
Proof.
  intros Hfg. unfold Spec.sum_list.
  induction l as [|z l IH]; cbn [map fold_right]; [reflexivity|].
  now rewrite Hfg, IH.
Qed.

Lemma draws_of_call_length (m : MonteCarloModel.t) (w : entropy) :
  length (draws_of_call m w) = Z.to_nat (MonteCarloModel.N m).
Proof.
  unfold draws_of_call, draws. now rewrite length_map, length_seq.
Qed.

Lemma terminal_price_nonneg (opt : EuropeanOption.t) (z : R) :
  0 <= EuropeanOption.S opt -> 0 <= Spec.terminal_price opt z.
Proof.
  intros HS. unfold Spec.terminal_price.
  apply Rmult_le_pos; [exact HS|]. left. apply exp_pos.
Qed.

Lemma sum_list_map_const (c : R) (l : list R) :
  Spec.sum_list (map (fun _ : R => c) l) = INR (length l) * c.
Proof.
  unfold Spec.sum_list. induction l as [|z l IH].
  - cbn [map fold_right length INR]. ring.
  - cbn [map fold_right length]. rewrite IH, S_INR. ring.
Qed.

Lemma quotient_le (s n c : R) : 0 < n -> s <= n * c -> s / n <= c.
Proof.
  intros Hn Hs. apply Rmult_le_reg_r with n; [exact Hn|].
  unfold Rdiv. rewrite Rmult_assoc, Rinv_l; lra.
Qed.

Lemma quotient_nonneg (s n : R) : 0 < n -> 0 <= s -> 0 <= s / n.
Proof.
  intros Hn Hs. apply Rmult_le_pos; [exact Hs|].
  left. now apply Rinv_0_lt_compat.
Qed.

Section SimulationParity.

Variables (opt : EuropeanOption.t) (zs : list R).

Let payoffs (ty : OptionType) : R :=
  Spec.sum_list
    (map (fun z => EuropeanOption.payoff (with_type opt ty)
                     (Spec.terminal_price (with_type opt ty) z)) zs).

Lemma payoff_sum_parity :
  payoffs Call - payoffs Put
  = Spec.sum_list (map (Spec.terminal_price opt) zs)
    - INR (length zs) * EuropeanOption.K opt.
Proof.
  unfold payoffs. rewrite sum_list_map_minus.
  rewrite (sum_list_map_ext _
             (fun z => Spec.terminal_price opt z + - EuropeanOption.K opt)).
  - rewrite sum_list_map_shift. ring.
  - intros z.
    change (Spec.terminal_price (with_type opt Call) z)
      with (Spec.terminal_price opt z).
    change (Spec.terminal_price (with_type opt Put) z)
      with (Spec.terminal_price opt z).
    rewrite payoff_call_minus_put. ring.
Qed.

Lemma payoff_sum_bounds (ty : OptionType) : 0 <= payoffs ty.
Proof.
  unfold payoffs.
  replace 0 with (Spec.sum_list (map (fun _ : R => 0) zs))
    by (rewrite sum_list_map_const; ring).
  apply sum_list_map_le. intros z. apply payoff_nonneg.
Qed.

Lemma payoff_sum_put_le :
  0 <= EuropeanOption.S opt -> 0 <= EuropeanOption.K opt ->
  payoffs Put <= INR (length zs) * EuropeanOption.K opt.
Proof.
  intros HS HK. unfold payoffs. rewrite <- sum_list_map_const.
  apply sum_list_map_le. intros z.
  pose proof (payoff_put_le_strike opt
                (Spec.terminal_price (with_type opt Put) z) HK
                (terminal_price_nonneg (with_type opt Put) z HS)) as H.
  lra.
Qed.

End SimulationParity.







(** ** Sensitivity of the analytic price to the spot *)



(** * The simulation price in the range of [double] *)

(** ** Range and rounding *)

Lemma pow2_10 : 2 ^ 10 = 1024.
Proof. simpl. lra. Qed.

Lemma DBL_MAX_large : 1024 <= Double.DBL_MAX.
Proof.
  unfold Double.DBL_MAX.
  assert (H1 : 1 <= 2 ^ 52) by (apply pow_R1_Rle; lra).
  assert (H2 : / 2 ^ 52 <= 1).
  { rewrite <- Rinv_1. apply Rinv_le_contravar; lra. }
  assert (H3 : 2 ^ 10 <= 2 ^ 1023) by (apply Rle_pow; [lra|lia]).
  rewrite pow2_10 in H3.
  apply Rle_trans with (1 * 2 ^ 1023); [lra|].
  apply Rmult_le_compat_r; lra.
Qed.

Lemma DBL_MAX_below : Double.DBL_MAX < 2 ^ 1024.
Proof.
  unfold Double.DBL_MAX.
  assert (H1 : 0 < 2 ^ 52) by (apply pow_lt; lra).
  assert (H2 : 0 < / 2 ^ 52) by now apply Rinv_0_lt_compat.
  assert (H3 : 0 < 2 ^ 1023) by (apply pow_lt; lra).
  change (2 ^ 1024) with (2 * 2 ^ 1023).
  apply Rmult_lt_compat_r; lra.
Qed.

Lemma half_DBL_TRUE_MIN : Double.DBL_TRUE_MIN / 2 = / 2 ^ 1075.
Proof.
  unfold Double.DBL_TRUE_MIN. change (2 ^ 1075) with (2 * 2 ^ 1074).
  assert (H : 0 < 2 ^ 1074) by (apply pow_lt; lra).
  field; lra.
Qed.

Lemma half_DBL_TRUE_MIN_small : 0 < Double.DBL_TRUE_MIN / 2 <= / 1024.
Proof.
  rewrite half_DBL_TRUE_MIN.
  assert (H1 : 0 < 2 ^ 1075) by (apply pow_lt; lra).
  assert (H2 : 2 ^ 10 <= 2 ^ 1075) by (apply Rle_pow; [lra|lia]).
  rewrite pow2_10 in H2.
  split; [now apply Rinv_0_lt_compat|apply Rinv_le_contravar; lra].
Qed.

Lemma exact_zero (x : R) : x = 0 -> exact x.
Proof.
  intros ->. unfold exact, Double.round.
  pose proof DBL_MAX_large. pose proof half_DBL_TRUE_MIN_small.
  destruct (Rlt_dec Double.DBL_MAX 0); [lra|].
  destruct (Rlt_dec 0 (- Double.DBL_MAX)); [lra|].
  rewrite Rabs_R0. destruct (Rlt_dec 0 (Double.DBL_TRUE_MIN / 2)); [|lra].
  reflexivity.
Qed.

Lemma exact_moderate (x : R) : / 1024 <= Rabs x <= 1024 -> exact x.
Proof.
  intros [Hlo Hhi]. unfold exact, Double.round.
  pose proof DBL_MAX_large. pose proof half_DBL_TRUE_MIN_small.
  pose proof (Rle_abs x). pose proof (Rle_abs (- x)) as Hn.
  rewrite Rabs_Ropp in Hn.
  destruct (Rlt_dec Double.DBL_MAX x); [lra|].
  destruct (Rlt_dec x (- Double.DBL_MAX)); [lra|].
  destruct (Rlt_dec (Rabs x) (Double.DBL_TRUE_MIN / 2)); [lra|].
  reflexivity.
Qed.

Lemma round_overflow (x : R) : 2 ^ 1024 <= x -> Double.round x = PInf.
Proof.
  intros H. unfold Double.round. pose proof DBL_MAX_below.
  destruct (Rlt_dec Double.DBL_MAX x); [reflexivity|lra].
Qed.

Lemma round_underflow (x : R) :
  0 <= x < / 2 ^ 1075 -> Double.round x = Num 0.
Proof.
  intros [H0 H]. unfold Double.round.
  pose proof DBL_MAX_large. pose proof half_DBL_TRUE_MIN_small as [Hs Hs'].
  rewrite <- half_DBL_TRUE_MIN in H.
  destruct (Rlt_dec Double.DBL_MAX x); [lra|].
  destruct (Rlt_dec x (- Double.DBL_MAX)); [lra|].
  rewrite Rabs_pos_eq by exact H0.
  destruct (Rlt_dec x (Double.DBL_TRUE_MIN / 2)); [reflexivity|lra].
Qed.

Lemma round_nonneg (x : R) : 0 <= x -> Double.nonneg (Double.round x).
Proof.
  intros H. unfold Double.round. pose proof DBL_MAX_large.
  destruct (Rlt_dec Double.DBL_MAX x); [exact I|].
  destruct (Rlt_dec x (- Double.DBL_MAX)); [lra|].
  destruct (Rlt_dec (Rabs x) (Double.DBL_TRUE_MIN / 2)); cbn; lra.
Qed.

Lemma round_not_NaN (x : R) : Double.round x <> NaN.
Proof.
  unfold Double.round.
  destruct (Rlt_dec Double.DBL_MAX x); [discriminate|].
  destruct (Rlt_dec x (- Double.DBL_MAX)); [discriminate|].
  destruct (Rlt_dec (Rabs x) (Double.DBL_TRUE_MIN / 2)); discriminate.
Qed.

(** ** Signs: a result is never negative *)

Lemma max_0_sign (a : double) :
  Double.max a (Num 0) = NaN \/ Double.nonneg (Double.max a (Num 0)).
Proof.
  destruct a as [x| | |]; unfold Double.max, Double.lt.
  - destruct (Rlt_dec x 0); right; cbn; lra.
  - right. exact I.
  - right. cbn. lra.
  - left. reflexivity.
Qed.

Lemma payoff_sign (opt : EuropeanOption.t) (ST : double) :
  MonteCarloDouble.payoff opt ST = NaN
  \/ Double.nonneg (MonteCarloDouble.payoff opt ST).
Proof.
  unfold MonteCarloDouble.payoff.
  destruct (EuropeanOption.type opt); apply max_0_sign.
Qed.

Lemma add_sign (a b : double) :
  a = NaN \/ Double.nonneg a -> b = NaN \/ Double.nonneg b ->
  Double.add a b = NaN \/ Double.nonneg (Double.add a b).
Proof.
  intros [->|Ha]; [now left|]. intros [->|Hb]; [left; now destruct a|].
  destruct a as [x| | |], b as [y| | |]; cbn in *; try contradiction;
    try (right; exact I).
  right. apply round_nonneg. lra.
Qed.

Lemma div_sign (a : double) (y : R) :
  0 < y -> a = NaN \/ Double.nonneg a ->
  Double.div a (Num y) = NaN \/ Double.nonneg (Double.div a (Num y)).
Proof.
  intros Hy [->|Ha]; [now left|]. right.
  destruct a as [x| | |]; cbn in *; try contradiction.
  - destruct (Req_dec_T y 0); [lra|]. apply round_nonneg.
    apply Rmult_le_pos; [exact Ha|]. left. now apply Rinv_0_lt_compat.
  - destruct (Rlt_dec y 0); [lra|exact I].
Qed.

Lemma exp_sign (a : double) : a <> NaN -> Double.nonneg (Double.exp a).
Proof.
  intros Ha. destruct a as [x| | |]; cbn; try exact I; try lra.
  - apply round_nonneg. left. apply exp_pos.
  - contradiction.
Qed.

Lemma mul_sign (a b : double) :
  Double.nonneg a -> b = NaN \/ Double.nonneg b ->
  Double.mul a b = NaN \/ Double.nonneg (Double.mul a b).
Proof.
  intros Ha [->|Hb]; [left; now destruct a|].
  destruct a as [x| | |], b as [y| | |]; cbn in *; try contradiction;
    try (right; exact I).
  - right. apply round_nonneg. now apply Rmult_le_pos.
  - unfold Double.inf_of_sign.
    destruct (Rlt_dec 0 x); [right; exact I|].
    destruct (Rlt_dec x 0); [lra|now left].
  - unfold Double.inf_of_sign.
    destruct (Rlt_dec 0 y); [right; exact I|].
    destruct (Rlt_dec y 0); [lra|now left].
Qed.

Lemma draw_sign (opt : EuropeanOption.t) (s : double) (gen : generator) :
  s = NaN \/ Double.nonneg s ->
  fst (MonteCarloDouble.draw opt (s, gen)) = NaN
  \/ Double.nonneg (fst (MonteCarloDouble.draw opt (s, gen))).
Proof.
  intros Hs. unfold MonteCarloDouble.draw. cbn [dist fst].
  apply add_sign; [exact Hs|apply payoff_sign].
Qed.

Lemma sampling_loop_sign (opt : EuropeanOption.t) (range : list Z) :
  forall (s : double) (gen : generator),
    s = NaN \/ Double.nonneg s ->
    fst (fold_left (fun st (_ : Z) => MonteCarloDouble.draw opt st) range
           (s, gen)) = NaN
    \/ Double.nonneg
         (fst (fold_left (fun st (_ : Z) => MonteCarloDouble.draw opt st)
                 range (s, gen))).
Proof.
  induction range as [|i range IH]; intros s gen Hs; [exact Hs|].
  cbn [fold_left]. pose proof (draw_sign opt s gen Hs) as Hd.
  destruct (MonteCarloDouble.draw opt (s, gen)) as [s' gen'].
  now apply IH.
Qed.

(** For N > 0 the price is NaN or non-negative, on every contract. *)
Lemma simulation_price_sign
    (m : MonteCarloModel.t) (opt : EuropeanOption.t) (w : entropy) :
  (0 < MonteCarloModel.N m)%Z ->
  exists v : double,
    fst (MonteCarloDouble.price m opt w) = Returned v
    /\ (v = NaN \/ Double.nonneg v).
Proof.
  intros HN. unfold MonteCarloDouble.price. cbn [random_device].
  pose proof (sampling_loop_sign opt (seqZ 0 (MonteCarloModel.N m))
                (Num 0) (w O)) as Hloop.
  destruct (fold_left _ _ _) as [payoff_sum gen]. cbn [fst] in *.
  eexists. split; [reflexivity|].
  apply mul_sign.
  - apply exp_sign. cbn. apply round_not_NaN.
  - apply div_sign; [apply IZR_lt; exact HN|].
    apply Hloop. right. cbn. lra.
Qed.

(** ** NaN from the square root of a negative maturity *)

Lemma add_NaN_r (a : double) : Double.add a NaN = NaN.
Proof. now destruct a. Qed.

Lemma mul_NaN_r (a : double) : Double.mul a NaN = NaN.
Proof. now destruct a. Qed.

Lemma sqrt_negative (x : R) : x < 0 -> Double.sqrt (Num x) = NaN.
Proof.
  intros H. cbn. destruct (Rlt_dec x 0); [reflexivity|contradiction].
Qed.

Lemma payoff_NaN (opt : EuropeanOption.t) :
  MonteCarloDouble.payoff opt NaN = NaN.
Proof.
  unfold MonteCarloDouble.payoff.
  destruct (EuropeanOption.type opt); reflexivity.
Qed.

Lemma draw_negative_T (opt : EuropeanOption.t) (s : double)
    (gen : generator) :
  EuropeanOption.T opt < 0 ->
  fst (MonteCarloDouble.draw opt (s, gen)) = NaN.
Proof.
  intros HT. unfold MonteCarloDouble.draw. cbn [dist fst].
  rewrite sqrt_negative by exact HT.
  cbn [Double.mul]. rewrite add_NaN_r. cbn [Double.exp Double.mul].
  rewrite payoff_NaN. apply add_NaN_r.
Qed.

Lemma sampling_loop_negative_T (opt : EuropeanOption.t) (range : list Z) :
  EuropeanOption.T opt < 0 -> range <> [] ->
  forall (s : double) (gen : generator),
    fst (fold_left (fun st (_ : Z) => MonteCarloDouble.draw opt st) range
           (s, gen)) = NaN.
Proof.
  intros HT. induction range as [|i range IH]; intros Hne s gen;
    [contradiction|].
  cbn [fold_left]. pose proof (draw_negative_T opt s gen HT) as Hd.
  destruct (MonteCarloDouble.draw opt (s, gen)) as [s' gen'].
  destruct range as [|j range]; [exact Hd|].
  apply IH. discriminate.
Qed.

(** For T < 0 and N > 0 the price is NaN. *)
Lemma simulation_price_negative_T
    (m : MonteCarloModel.t) (opt : EuropeanOption.t) (w : entropy) :
  EuropeanOption.T opt < 0 -> (0 < MonteCarloModel.N m)%Z ->
  fst (MonteCarloDouble.price m opt w) = Returned NaN.
Proof.
  intros HT HN. unfold MonteCarloDouble.price. cbn [random_device].
  assert (Hne : seqZ 0 (MonteCarloModel.N m) <> []).
  { intros E. apply (f_equal length) in E.
    rewrite length_seqZ in E. cbn in E. lia. }
  pose proof (sampling_loop_negative_T opt _ HT Hne (Num 0) (w O)) as Hloop.
  destruct (fold_left _ _ _) as [payoff_sum gen]. cbn [fst] in *.
  rewrite Hloop. f_equal. cbn [Double.div]. apply mul_NaN_r.
Qed.

(** The claim as stated fails at T = -1: the price is NaN, which is
    not >= 0. *)
Lemma simulation_price_nan_at_negative_T :
  exists v : double,
    fst (MonteCarloDouble.price (MonteCarloModel.mk 1) negative_T_contract
           (constant_entropy 0)) = Returned v
    /\ ~ Double.nonneg v.
Proof.
  exists NaN. split; [|intros H; exact H].
  apply simulation_price_negative_T; [simpl; lra|simpl; lia].
Qed.

(** ** NaN from an overflow meeting an underflow *)

Lemma round_pos_moderate (x : R) :
  / 1024 <= x <= 1024 -> Double.round x = Num x.
Proof.
  intros H. apply exact_moderate. rewrite Rabs_pos_eq; lra.
Qed.

Lemma round_neg_moderate (x : R) :
  - 1024 <= x <= - / 1024 -> Double.round x = Num x.
Proof.
  intros H. apply exact_moderate. rewrite <- Rabs_Ropp, Rabs_pos_eq; lra.
Qed.

Lemma exp_1_lower : 9 / 4 < exp 1.
Proof.
  assert (H : 1 + 1 / 2 < exp (1 / 2)) by (apply exp_ineq1; lra).
  replace 1 with (1 / 2 + 1 / 2) at 1 by lra. rewrite exp_plus. nra.
Qed.

Lemma exp_7_lower : 2 ^ 8 <= exp 7.
Proof.
  pose proof exp_1_lower as H1.
  replace 7 with (INR 7 * 1) by (simpl; lra). rewrite <- exp_pow_INR.
  apply Rle_trans with ((9 / 4) ^ 7); [simpl; lra|].
  apply pow_incr. lra.
Qed.

(** e^(7k) is at least 2^(8k). *)
Lemma exp_7k_lower (k : nat) : 2 ^ (8 * k) <= exp (INR k * 7).
Proof.
  rewrite pow_mult, <- exp_pow_INR. apply pow_incr.
  split; [apply pow_le; lra|apply exp_7_lower].
Qed.

Lemma exp_overflows (x : R) : 896 <= x -> Double.round (exp x) = PInf.
Proof.
  intros Hx. apply round_overflow.
  pose proof (exp_7k_lower 128) as H.
  change (8 * 128)%nat with 1024%nat in H.
  replace (INR 128 * 7) with 896 in H
    by (rewrite INR_IZR_INZ; change (Z.of_nat 128) with 128%Z; lra).
  destruct Hx as [Hx|<-]; [|exact H].
  apply exp_increasing in Hx. lra.
Qed.

Lemma exp_underflows (x : R) : x <= - 945 -> Double.round (exp x) = Num 0.
Proof.
  intros Hx. apply round_underflow. split; [left; apply exp_pos|].
  pose proof (exp_7k_lower 135) as H.
  change (8 * 135)%nat with 1080%nat in H.
  replace (INR 135 * 7) with 945 in H
    by (rewrite INR_IZR_INZ; change (Z.of_nat 135) with 135%Z; lra).
  assert (H2 : 2 ^ 1075 < 2 ^ 1080) by (apply Rlt_pow; [lra|lia]).
  assert (H3 : 0 < 2 ^ 1075) by (apply pow_lt; lra).
  assert (H4 : exp 945 <= exp (- x)).
  { destruct (Req_dec (- x) 945) as [->|Hne]; [lra|].
    left. apply exp_increasing. lra. }
  replace x with (- - x) by ring. rewrite exp_Ropp.
  apply Rinv_lt_contravar; [|lra].
  apply Rmult_lt_0_compat; [exact H3|apply exp_pos].
Qed.

(** At r = 1000 on an otherwise ordinary contract the terminal price
    overflows to +infinity and the discount factor underflows to 0:
    their product is NaN. *)
Lemma simulation_price_nan_at_overflow :
  fst (MonteCarloDouble.price (MonteCarloModel.mk 1) overflow_contract
         (constant_entropy 0)) = Returned NaN.
Proof.
  unfold MonteCarloDouble.price, overflow_contract.
  cbn [random_device MonteCarloModel.N EuropeanOption.r EuropeanOption.T].
  change (seqZ 0 1) with [0%Z]. cbn [fold_left].
  unfold MonteCarloDouble.draw, MonteCarloDouble.payoff.
  cbn [dist constant_entropy constant_generator EuropeanOption.S
       EuropeanOption.K EuropeanOption.T EuropeanOption.r
       EuropeanOption.sigma EuropeanOption.type].
  unfold constant_entropy, constant_generator.
  cbn [Double.mul Double.sqrt].
  rewrite (round_pos_moderate (0.5 * 0.2)) by lra.
  cbn [Double.mul].
  rewrite (round_pos_moderate (0.5 * 0.2 * 0.2)) by lra.
  unfold Double.sub. cbn [Double.opp Double.add].
  rewrite (round_pos_moderate (1000 + - (0.5 * 0.2 * 0.2))) by lra.
  cbn [Double.mul].
  rewrite (round_pos_moderate ((1000 + - (0.5 * 0.2 * 0.2)) * 1)) by lra.
  destruct (Rlt_dec 1 0) as [H|_]; [lra|].
  rewrite sqrt_1. cbn [Double.mul].
  rewrite (round_pos_moderate (0.2 * 1)) by lra.
  cbn [Double.mul].
  rewrite (exact_zero (0.2 * 1 * 0)) by lra.
  cbn [Double.add].
  rewrite (round_pos_moderate
             ((1000 + - (0.5 * 0.2 * 0.2)) * 1 + 0.2 * 1 * 0)) by lra.
  cbn [Double.exp]. rewrite exp_overflows by lra.
  cbn [Double.mul]. unfold Double.inf_of_sign.
  destruct (Rlt_dec 0 100) as [_|H]; [|lra].
  cbn [Double.opp Double.add Double.max Double.lt fst Double.mul].
  rewrite (round_neg_moderate (Ropp 1000 * 1)) by lra.
  cbn [Double.exp]. rewrite exp_underflows by lra.
  cbn [Double.div]. destruct (Rlt_dec 1 0) as [H|_]; [lra|].
  cbn [Double.mul]. unfold Double.inf_of_sign.
  destruct (Rlt_dec 0 0) as [H|_]; [lra|]. reflexivity.
Qed.

(** ** Agreement with the real-number embedding inside the range *)

Lemma max_0_num (d : R) :
  Double.max (Num d) (Num 0) = Num (std_max d 0).
Proof.
  unfold Double.max, Double.lt, std_max. now destruct (Rlt_dec d 0).
Qed.

Lemma sqrt_num (x : R) : 0 <= x -> Double.sqrt (Num x) = Num (sqrt x).
Proof.
  intros H. cbn. destruct (Rlt_dec x 0); [lra|reflexivity].
Qed.

Lemma draw_in_range (opt : EuropeanOption.t) (s : R) (gen : generator) :
  0 <= EuropeanOption.T opt -> exact_draw opt s (gen O) ->
  MonteCarloDouble.draw opt (Num s, gen)
  = (Num (fst (MonteCarloModel.draw opt (s, gen))),
     snd (MonteCarloModel.draw opt (s, gen))).
Proof.
  intros HT (H1 & H2 & H3 & H4 & H5 & H6 & H7 & H8 & H9 & H10 & H11).
  unfold exact in *.
  unfold MonteCarloDouble.draw, MonteCarloModel.draw,
    MonteCarloDouble.payoff, EuropeanOption.payoff.
  cbn [dist fst snd]. unfold Double.sub.
  rewrite sqrt_num by exact HT.
  cbn [Double.mul Double.opp Double.add]. rewrite H1.
  cbn [Double.mul Double.opp Double.add]. rewrite H2.
  cbn [Double.mul Double.opp Double.add].
  fold (Rminus (EuropeanOption.r opt)
          (0.5 * EuropeanOption.sigma opt * EuropeanOption.sigma opt)).
  rewrite H3. cbn [Double.mul]. rewrite H4, H5.
  cbn [Double.mul]. rewrite H6. cbn [Double.add]. rewrite H7.
  cbn [Double.exp]. rewrite H8. cbn [Double.mul]. rewrite H9.
  destruct (EuropeanOption.type opt); cbn [Double.opp Double.add].
  - fold (Rminus
            (EuropeanOption.S opt
             * exp ((EuropeanOption.r opt
                     - 0.5 * EuropeanOption.sigma opt
                       * EuropeanOption.sigma opt)
                    * EuropeanOption.T opt
                    + EuropeanOption.sigma opt * sqrt (EuropeanOption.T opt)
                      * gen O))
            (EuropeanOption.K opt)).
    rewrite H10, max_0_num. cbn [Double.add]. rewrite H11. reflexivity.
  - fold (Rminus (EuropeanOption.K opt)
            (EuropeanOption.S opt
             * exp ((EuropeanOption.r opt
                     - 0.5 * EuropeanOption.sigma opt
                       * EuropeanOption.sigma opt)
                    * EuropeanOption.T opt
                    + EuropeanOption.sigma opt * sqrt (EuropeanOption.T opt)
                      * gen O))).
    rewrite H10, max_0_num. cbn [Double.add]. rewrite H11. reflexivity.
Qed.

Lemma sampling_loop_in_range (opt : EuropeanOption.t) (range : list Z) :
  0 <= EuropeanOption.T opt ->
  forall (s : R) (gen : generator),
    exact_loop opt s (draws gen (length range)) ->
    fold_left (fun st (_ : Z) => MonteCarloDouble.draw opt st) range
      (Num s, gen)
    = (Num (fst (fold_left (fun st (_ : Z) => MonteCarloModel.draw opt st)
                   range (s, gen))),
       snd (fold_left (fun st (_ : Z) => MonteCarloModel.draw opt st)
              range (s, gen))).
Proof.
  intros HT. induction range as [|i range IH]; intros s gen Hloop;
    [reflexivity|].
  cbn [length] in Hloop. rewrite draws_succ in Hloop.
  destruct Hloop as [Hdraw Hrest]. cbn [fold_left].
  rewrite (draw_in_range opt s gen HT Hdraw).
  rewrite IH by exact Hrest.
  now destruct (MonteCarloModel.draw opt (s, gen)).
Qed.

(** Where no operation of the call leaves the range (and T >= 0,
    N > 0), the price over [double] is the price over the reals. *)
Lemma simulation_price_in_range
    (m : MonteCarloModel.t) (opt : EuropeanOption.t) (w : entropy) :
  0 <= EuropeanOption.T opt -> (0 < MonteCarloModel.N m)%Z ->
  exact_price m opt w ->
  exists x : R,
    fst (MonteCarloDouble.price m opt w) = Returned (Num x)
    /\ fst (MonteCarloModel.price m opt w) = Returned x.
Proof.
  intros HT HN (Hloop & H1 & H2 & H3 & H4). unfold exact in *.
  cbv zeta in H3, H4.
  unfold MonteCarloDouble.price, MonteCarloModel.price.
  cbn [random_device fst] in *.
  unfold draws_of_call in Hloop. cbn [random_device fst] in Hloop.
  rewrite <- (length_seqZ 0 (MonteCarloModel.N m)) in Hloop.
  rewrite (sampling_loop_in_range opt _ HT 0 (w O) Hloop).
  destruct (fold_left _ _ _) as [payoff_sum gen]. cbn [fst snd] in *.
  eexists. split; [|reflexivity]. f_equal.
  cbn [Double.opp Double.mul]. rewrite H1.
  cbn [Double.exp]. rewrite H2. cbn [Double.div].
  destruct (Req_dec_T (IZR (MonteCarloModel.N m)) 0) as [E|_].
  { apply eq_IZR in E. lia. }
  rewrite H3. cbn [Double.mul]. exact H4.
Qed.

(** The sample Call on the draw Z = 0 stays inside the range. *)
Lemma sample_call_exact :
  exact_price (MonteCarloModel.mk 1) (sample_contract Call)
    (constant_entropy 0).
Proof.
  pose proof exp_le_3 as He.
  assert (Hup : forall x : R, x <= 1 -> exp x <= 3).
  { intros x [Hx | ->]; [|exact He]. apply exp_increasing in Hx. lra. }
  assert (Hlo : forall x : R, 0 < x -> 1 + x < exp x)
    by (intros x Hx; apply exp_ineq1; lra).
  assert (Hinv : forall x : R, 0 < x <= 1 -> / 3 <= exp (- x) < 1).
  { intros x Hx. rewrite exp_Ropp.
    pose proof (Hup x ltac:(lra)). pose proof (Hlo x ltac:(lra)).
    split.
    - apply Rinv_le_contravar; lra.
    - rewrite <- Rinv_1. apply Rinv_lt_contravar; lra. }
  assert (Edrift : (0.05 - 0.5 * 0.2 * 0.2) * 1 + 0.2 * sqrt 1 * 0 = 0.03)
    by (rewrite sqrt_1; lra).
  pose proof (Hup 0.03 ltac:(lra)) as Hu. pose proof (Hlo 0.03 ltac:(lra)) as Hl.
  pose proof (Hinv 0.05 ltac:(lra)) as Hd.
  unfold exact_price, sample_contract.
  cbn [random_device fst MonteCarloModel.N EuropeanOption.r EuropeanOption.T].
  change (seqZ 0 1) with [0%Z]. cbn [fold_left].
  unfold draws_of_call, draws. cbn [random_device fst MonteCarloModel.N].
  change (Z.to_nat 1) with 1%nat. cbn [seq map exact_loop].
  unfold exact_draw, MonteCarloModel.draw, EuropeanOption.payoff.
  cbn [dist fst EuropeanOption.S EuropeanOption.K EuropeanOption.T
       EuropeanOption.r EuropeanOption.sigma EuropeanOption.type].
  unfold constant_entropy, constant_generator.
  rewrite Edrift.
  assert (Emax : std_max (100 * exp 0.03 - 100) 0 = 100 * exp 0.03 - 100).
  { unfold std_max. destruct (Rlt_dec (100 * exp 0.03 - 100) 0); lra. }
  rewrite Emax.
  replace (Ropp 0.05 * 1) with (Ropp 0.05) by lra.
  repeat split; try exact I;
    try (apply round_pos_moderate; rewrite ?sqrt_1; nra);
    try (apply exact_zero; rewrite ?sqrt_1; lra).
  apply round_neg_moderate. lra.
Qed.

(** C10. For every contract (any r, either payoff kind), every sample
    count N > 0 and whatever the draws, the price the Simulation Pricer
    returns is never negative: it is NaN or >= 0 (possibly +infinity).
    For T >= 0, where no operation of the call overflows or underflows,
    it is a number >= 0, the one of the real-number embedding. *)
Theorem simulation_price_nonneg
    (m : MonteCarloModel.t) (opt : EuropeanOption.t) (w : entropy) :
  (0 < MonteCarloModel.N m)%Z ->
  exists v : double,
    fst (MonteCarloDouble.price m opt w) = Returned v
    /\ (v = NaN \/ Double.nonneg v)
    /\ (0 <= EuropeanOption.T opt -> exact_price m opt w ->
        exists x : R,
          v = Num x /\ 0 <= x
          /\ fst (MonteCarloModel.price m opt w) = Returned x).
Proof.
  intros HN.
  destruct (simulation_price_sign m opt w HN) as (v & Hv & Hsign).
  exists v. split; [exact Hv|]. split; [exact Hsign|].
  intros HT Hexact.
  destruct (simulation_price_in_range m opt w HT HN Hexact)
    as (x & Hx & Hreal).
  exists x. rewrite Hx in Hv. injection Hv as <-.
  split; [reflexivity|]. split; [|exact Hreal].
  destruct Hsign as [Hnan|Hpos]; [discriminate|exact Hpos].
Qed.

(** The sample Call with one draw Z = 0: a number >= 0. *)
Lemma simulation_price_nonneg_witness :
  exists x : R,
    fst (MonteCarloDouble.price (MonteCarloModel.mk 1) (sample_contract Call)
           (constant_entropy 0)) = Returned (Num x)
    /\ 0 <= x.
Proof.
  destruct (simulation_price_nonneg (MonteCarloModel.mk 1)
              (sample_contract Call) (constant_entropy 0))
    as (v & Hv & _ & Hnum); [simpl; lia|].
  destruct Hnum as (x & -> & Hx & _);
    [simpl; lra|apply sample_call_exact|].
  exists x. split; [exact Hv|exact Hx].
Defined.
